(** * A shallow embedding of the world generator of 3d_adventure_game

    The development follows [src/rng.js] (the seeded generator) and the
    world-generation module ([createWorld], [carvePath], [nearCorridor],
    [addLandmarks]).

    - JavaScript numbers are IEEE 754 binary64 values; they are modelled by
      [spec_float] with precision 53 and maximal exponent 1024, and the
      arithmetic operators by the executable operations of [SpecFloat].
    - The 32-bit operators ([>>>], [^], [|], [Math.imul]) act on integers;
      they are modelled on [Z] with the conversions [ToInt32] and [ToUint32]
      written out.
    - [Math.cos], [Math.sin] and [Math.atan2] are implementation-defined in
      ECMAScript; the generator is parametric in them.
    - The THREE.js objects handed to [scene.add] are represented by the
      arguments the code passes to their constructors.

    The map overlay of [src/map.js] follows: [worldToMap], the calls [draw]
    makes on the 2D context, and the opening and closing of the overlay
    under its listeners and methods. *)

From Stdlib Require Import ZArith List Bool Lia String Ascii SpecFloat.
Import ListNotations.

Local Open Scope Z_scope.

(* ================================================================== *)
(** ** JavaScript numbers *)

Module Num.

Definition prec : Z := 53.
Definition emax : Z := 1024.

Definition float : Type := spec_float.

Definition add : float -> float -> float := SFadd prec emax.
Definition sub : float -> float -> float := SFsub prec emax.
Definition mul : float -> float -> float := SFmul prec emax.
Definition div : float -> float -> float := SFdiv prec emax.
Definition opp : float -> float := SFopp.
Definition ltb : float -> float -> bool := SFltb.
Definition leb : float -> float -> bool := SFleb.
Definition eqb : float -> float -> bool := SFeqb.

(** The number denoted by an integer literal or an integer-valued
    intermediate result (correctly rounded; exact below [2^53]). *)
Definition of_Z (z : Z) : float := binary_normalize prec emax z 0 false.

(** The number denoted by the decimal literal [n / d], for instance
    [0.75 = dec 75 100]: the division of two exactly represented integers
    is correctly rounded, as the literal is. *)
Definition dec (n d : Z) : float := div (of_Z n) (of_Z d).

Definition zero : float := S754_zero false.
Definition one : float := of_Z 1.
Definition NaN : float := S754_nan.

(** [Math.PI], the binary64 number nearest to pi:
    [0x1.921fb54442d18p+1]. *)
Definition PI : float := S754_finite false 7074237752028440 (-51).

(** Truncation toward zero of a finite number; [None] for NaN and the
    infinities. *)
Definition trunc (x : float) : option Z :=
  match x with
  | S754_zero _ => Some 0
  | S754_finite s m e =>
      let a := match e with
               | Zneg k => Z.shiftr (Zpos m) (Zpos k)
               | _ => Z.shiftl (Zpos m) e
               end in
      Some (if s then - a else a)
  | _ => None
  end.

(** Is the number an integer, and which one. *)
Definition to_integer (x : float) : option Z :=
  match trunc x with
  | Some z => if eqb (of_Z z) x then Some z else None
  | None => None
  end.

(** [Math.floor]. *)
Definition floor (x : float) : float :=
  match x with
  | S754_finite s m e =>
      match e with
      | Zneg k =>
          let q := Z.shiftr (Zpos m) (Zpos k) in
          let exact := Z.eqb (Z.shiftl q (Zpos k)) (Zpos m) in
          if s then
            (if exact then binary_normalize prec emax (- q) 0 true
             else of_Z (- q - 1))
          else binary_normalize prec emax q 0 false
      | _ => x
      end
  | _ => x
  end.

End Num.

Abbreviation float := Num.float.

Declare Scope float_scope.
Delimit Scope float_scope with flt.
Infix "+" := Num.add : float_scope.
Infix "-" := Num.sub : float_scope.
Infix "*" := Num.mul : float_scope.
Infix "/" := Num.div : float_scope.
Infix "<?" := Num.ltb : float_scope.
Notation "- x" := (Num.opp x) : float_scope.

(* ================================================================== *)
(** ** 32-bit integer operators *)

Module Int32.

Definition two32 : Z := 4294967296.
Definition two31 : Z := 2147483648.

(** [ToUint32] and [ToInt32] of an integer-valued number. *)
Definition ToUint32 (z : Z) : Z := z mod two32.

Definition ToInt32 (z : Z) : Z :=
  let u := z mod two32 in
  if u <? two31 then u else u - two32.

(** [ToUint32] of an arbitrary number: NaN and the infinities give 0,
    any other number is truncated and reduced modulo [2^32]. *)
Definition ToUint32_float (x : float) : Z :=
  match Num.trunc x with
  | Some z => ToUint32 z
  | None => 0
  end.

(** [a ^ b], [a | b], [a >>> n] and [Math.imul a b]. *)
Definition xor (a b : Z) : Z := Z.lxor (ToInt32 a) (ToInt32 b).
Definition or (a b : Z) : Z := Z.lor (ToInt32 a) (ToInt32 b).
Definition ushr (a n : Z) : Z := Z.shiftr (ToUint32 a) (n mod 32).
Definition imul (a b : Z) : Z := ToInt32 (ToInt32 a * ToInt32 b).

End Int32.

(* ================================================================== *)
(** ** src/rng.js *)

Module Rng.
Import Int32.

(** A JavaScript string is a sequence of UTF-16 code units. *)
Definition jsstring : Type := list Z.

Definition units_of (s : string) : jsstring :=
  map (fun c => Z.of_nat (nat_of_ascii c)) (list_ascii_of_string s).

(** The closure variable [t] of [mulberry32] is a number holding a
    non-negative integer.  [t += 0x6D2B79F5] is an addition of numbers:
    the exact sum, rounded to 53 significant bits (to nearest, ties to
    even).  [round53] is that rounding on non-negative integers. *)
Definition two53 : Z := 9007199254740992.

Definition round53 (n : Z) : Z :=
  if n <? two53 then n
  else
    let e := Z.log2 n - 52 in
    let q := Z.shiftr n e in
    let r := n - Z.shiftl q e in
    let half := Z.shiftl 1 (e - 1) in
    let q' := if r <? half then q
              else if half <? r then q + 1
              else if Z.even q then q else q + 1 in
    Z.shiftl q' e.

Definition increment : Z := 0x6D2B79F5.

(** [t += 0x6D2B79F5] *)
Definition advance (t : Z) : Z := round53 (t + increment).

(** The 32-bit word computed by the body of [rand] from the updated [t],
    that is [(x ^ (x >>> 14)) >>> 0]. *)
Definition mix (t : Z) : Z :=
  let x := imul (xor t (ushr t 15)) (or 1 t) in
  let x := xor x (x + imul (xor x (ushr x 7)) (or 61 x)) in
  ushr (xor x (ushr x 14)) 0.

(** [mulberry32(seed)] returns a closure over [t = seed >>> 0]. *)
Definition mulberry32 (seed : float) : Z := ToUint32_float seed.

(** One call of the closure: the new value of [t] and the result. *)
Definition rand (t : Z) : float * Z :=
  let t := advance t in
  (Num.div (Num.of_Z (mix t)) (Num.of_Z 4294967296), t).

(** [hashStringToUint32] (FNV-1a over the code units). *)
Definition hash_step (h c : Z) : Z := imul (xor h c) 16777619.

Definition hashStringToUint32 (str : jsstring) : Z :=
  ushr (fold_left hash_step str 2166136261) 0.

(** The values [createRng] is called with. *)
Inductive seed_arg : Type :=
| SeedUndefined
| SeedNull
| SeedBool (b : bool)
| SeedNumber (x : float)
| SeedString (s : jsstring).

(** [String(seed)] for the seeds that are not numbers. *)
Definition String_of (seed : seed_arg) : jsstring :=
  match seed with
  | SeedString s => s
  | SeedNull => units_of "null"
  | SeedBool true => units_of "true"
  | SeedBool false => units_of "false"
  | SeedUndefined => units_of "undefined"
  | SeedNumber _ => []
  end.

(** The object returned by [createRng]: the field [seed] and the state
    of the closure [rand]. *)
Record rng : Type := { seed : float; t : Z }.

Definition createRng (seed : seed_arg) : rng :=
  (* default parameter: [seed = "default"] *)
  let seed := match seed with
              | SeedUndefined => SeedString (units_of "default")
              | _ => seed
              end in
  let s := match seed with
           | SeedNumber x => x
           | _ => Num.of_Z (hashStringToUint32 (String_of seed))
           end in
  {| seed := s; t := mulberry32 s |}.

(** The methods of the object, as state transformers on [t]. *)
Definition next (r : rng) : float * rng :=
  let '(v, t') := rand (t r) in (v, {| seed := seed r; t := t' |}).

(** [float(min = 0, max = 1)]; the name [float] is that of the type of
    numbers. *)
Definition float_ (min max : option float) (r : rng) : float * rng :=
  let min := match min with Some m => m | None => Num.zero end in
  let max := match max with Some m => m | None => Num.one end in
  let '(v, r') := next r in
  ((min + (max - min) * v)%flt, r').

Definition int (minInclusive maxInclusive : float) (r : rng) : float * rng :=
  let '(v, r') := next r in
  (Num.floor (minInclusive + v * (maxInclusive - minInclusive + Num.one))%flt, r').

(** [arr[i]] for a number [i]: an element when [i] is an index of the
    array, [undefined] ([None]) otherwise. *)
Definition array_get {A : Type} (arr : list A) (i : float) : option A :=
  match Num.to_integer i with
  | Some z => if z <? 0 then None else nth_error arr (Z.to_nat z)
  | None => None
  end.

Definition pick {A : Type} (arr : list A) (r : rng) : option A * rng :=
  let '(v, r') := next r in
  (array_get arr (Num.floor (v * Num.of_Z (Z.of_nat (List.length arr)))%flt), r').

(** The generator after [k] draws, and the first [k] values drawn. *)
Fixpoint skip (k : nat) (r : rng) : rng :=
  match k with
  | O => r
  | S k' => skip k' (snd (next r))
  end.

Fixpoint stream (k : nat) (r : rng) : list float :=
  match k with
  | O => []
  | S k' => fst (next r) :: stream k' (snd (next r))
  end.

End Rng.

(* ================================================================== *)
(** ** The objects handed to the renderer *)

Module Scene.

(** A property of a material's option object. *)
Inductive value : Type :=
| VNum (x : float)
| VBool (b : bool)
| VColor (c : Z).

Definition Material : Type := list (string * value).

Inductive Geometry : Type :=
| PlaneGeometry (w h : float) (ws hs : Z)
| CircleGeometry (r : float) (segments : Z)
| BoxGeometry (w h d : float)
| CylinderGeometry (rTop rBottom h : float) (segments : Z)
| ConeGeometry (r h : float) (segments : Z)
| SphereGeometry (r : float) (ws hs : Z)
| DodecahedronGeometry (r : float) (detail : Z).

Definition vec3 : Type := float * float * float.

Record Mesh : Type := {
  geometry : Geometry;
  material : Material;
  position : vec3;
  rotation : vec3
}.

Inductive Object3D : Type :=
| OMesh (m : Mesh)
| OGroup (children : list Mesh).

Definition origin : vec3 := (Num.zero, Num.zero, Num.zero).

End Scene.

(* ================================================================== *)
(** ** World generation *)

Module World.
Import Scene.

Local Open Scope float_scope.

(** *** The world data *)

Record point : Type := { px : float; pz : float }.

Definition v2 (x z : float) : point := {| px := x; pz := z |}.

Record patch : Type :=
  { patch_x : float; patch_z : float; patch_r : float; patch_color : Z }.

Record path : Type := { width : float; points : list point }.

Record landmark : Type := {
  id : string;
  name : string;
  type : string;
  lm_x : float;
  lm_z : float
}.

Record world : Type := {
  bounds : float;
  patches : list patch;
  paths : list path;
  landmarks : list landmark
}.

(** *** The state the generator works on

    [rng] and [scene] are the objects passed to [createWorld]; [patches]
    and [paths] are the arrays local to it, which its inner functions
    [addPatch] and [carvePath] push onto. *)

Record gen_state : Type := {
  g_rng : Rng.rng;
  g_scene : list Object3D;
  g_patches : list patch;
  g_paths : list path
}.

Definition M (A : Type) : Type := gen_state -> A * gen_state.

Definition ret {A : Type} (a : A) : M A := fun st => (a, st).

Definition bind {A B : Type} (m : M A) (k : A -> M B) : M B :=
  fun st => let '(a, st') := m st in k a st'.

Notation "x <- m ;; k" := (bind m (fun x => k))
  (at level 61, m at next level, right associativity).
Notation "m ;;; k" := (bind m (fun _ => k))
  (at level 61, right associativity).

(** A [for] loop whose body does not read its counter, run [n] times on
    the loop-carried variables. *)
Fixpoint for_loop {S : Type} (n : nat) (body : S -> M S) (s : S) : M S :=
  match n with
  | O => ret s
  | Datatypes.S n' => s' <- body s ;; for_loop n' body s'
  end.

(** [rng.rand()] *)
Definition rng_rand : M float :=
  fun st =>
    let '(v, r') := Rng.next (g_rng st) in
    (v, {| g_rng := r'; g_scene := g_scene st;
           g_patches := g_patches st; g_paths := g_paths st |}).

(** [scene.add(o1, ..., on)] *)
Definition scene_add (os : list Object3D) : M unit :=
  fun st =>
    (tt, {| g_rng := g_rng st; g_scene := g_scene st ++ os;
            g_patches := g_patches st; g_paths := g_paths st |}).

Definition patches_push (p : patch) : M unit :=
  fun st =>
    (tt, {| g_rng := g_rng st; g_scene := g_scene st;
            g_patches := g_patches st ++ [p]; g_paths := g_paths st |}).

Definition paths_push (p : path) : M unit :=
  fun st =>
    (tt, {| g_rng := g_rng st; g_scene := g_scene st;
            g_patches := g_patches st; g_paths := g_paths st ++ [p] |}).

(** *** Number literals of the module *)

Definition n (z : Z) : float := Num.of_Z z.
Definition half_pi_neg : float := (- Num.PI) / n 2.

Definition standard (color : Z) (roughness : float) : Material :=
  [("color"%string, VColor color); ("roughness"%string, VNum roughness)].

Section Generator.

Variables Math_cos Math_sin : float -> float.
Variable Math_atan2 : float -> float -> float.

(** [addPathSegment(scene, pathMat, x, z, w, l, rotY)] *)
Definition addPathSegment (pathMat : Material) (x z w l rotY : float)
  : M Mesh :=
  let seg := {| geometry := BoxGeometry w (Num.dec 8 100) l;
                material := pathMat;
                position := (x, Num.dec 4 100, z);
                rotation := (Num.zero, rotY, Num.zero) |} in
  scene_add [OMesh seg] ;;; ret seg.

(** [addTree(scene, mats, x, z, s)]: the trunk, the canopy and the
    highlight it adds to the scene. *)
Definition tree_objects (trunkMat leafMat : Material) (x z s : float)
  : list Object3D :=
  let trunk :=
    {| geometry := CylinderGeometry (Num.dec 18 100 * s) (Num.dec 22 100 * s)
                                    (Num.dec 14 10 * s) 10;
       material := trunkMat;
       position := (x, Num.dec 7 10 * s, z);
       rotation := origin |} in
  let canopy :=
    {| geometry := ConeGeometry (n 1 * s) (Num.dec 22 10 * s) 10;
       material := leafMat;
       position := (x, n 2 * s, z);
       rotation := origin |} in
  let hi :=
    {| geometry := SphereGeometry (Num.dec 45 100 * s) 10 10;
       material := standard 0x2f6b3a (n 1);
       position := (x - Num.dec 35 100 * s, Num.dec 22 10 * s,
                    z - Num.dec 25 100 * s);
       rotation := origin |} in
  [OMesh trunk; OMesh canopy; OMesh hi].

Definition addTree (trunkMat leafMat : Material) (x z s : float) : M unit :=
  scene_add (tree_objects trunkMat leafMat x z s).

(** [addLandmarks(scene)] *)
Definition stone (x z : float) (i : Z) : Mesh :=
  let ang := (n i / n 11) * Num.PI * n 2 in
  let r := Num.dec 75 10 in
  let sx := x + Math_cos ang * r in
  let sz := z + Math_sin ang * r in
  let h := n 2 + n (i mod 3) * Num.dec 5 10 in
  {| geometry := CylinderGeometry (Num.dec 5 10) (Num.dec 7 10) h 8;
     material := [("color"%string, VColor 0x6c717a);
                  ("roughness"%string, VNum (n 1));
                  ("metalness"%string, VNum (n 0))];
     position := (sx, h / n 2, sz);
     rotation := (Num.zero, ang * Num.dec 7 10, Num.zero) |}.

Definition stone_ring : M landmark :=
  let name := "Stone Ring"%string in
  let x := n (-120) in
  let z := n (-80) in
  scene_add [OGroup (map (stone x z) [0; 1; 2; 3; 4; 5; 6; 7; 8; 9; 10]%Z)] ;;;
  ret {| id := "stone_ring"; name := name; type := "stone";
         lm_x := x; lm_z := z |}.

Definition pond : M landmark :=
  let name := "Pond"%string in
  let x := n 110 in
  let z := n 90 in
  let mat := [("color"%string, VColor 0x1d3d66);
              ("roughness"%string, VNum (Num.dec 15 100));
              ("metalness"%string, VNum (n 0));
              ("emissive"%string, VColor 0x0b1f33);
              ("emissiveIntensity"%string, VNum (Num.dec 25 100));
              ("transparent"%string, VBool true);
              ("opacity"%string, VNum (Num.dec 85 100))] in
  scene_add [OMesh {| geometry := CircleGeometry (n 11) 48;
                      material := mat;
                      position := (x, Num.dec 2 100, z);
                      rotation := (half_pi_neg, Num.zero, Num.zero) |}] ;;;
  ret {| id := "pond"; name := name; type := "water";
         lm_x := x; lm_z := z |}.

Definition watch_rock : M landmark :=
  let name := "Watch Rock"%string in
  let x := n (-140) in
  let z := n 120 in
  scene_add [OMesh {| geometry := DodecahedronGeometry (n 5) 0;
                      material := standard 0x61666f (Num.dec 95 100);
                      position := (x, Num.dec 34 10, z);
                      rotation := (Num.dec 2 10, Num.dec 6 10,
                                   Num.dec (-1) 10) |}] ;;;
  ret {| id := "watch_rock"; name := name; type := "rock";
         lm_x := x; lm_z := z |}.

Definition dead_tree : M landmark :=
  let name := "Dead Tree"%string in
  let x := n 150 in
  let z := n (-110) in
  let mat := standard 0x3e2a1c (n 1) in
  let trunk :=
    {| geometry := CylinderGeometry (Num.dec 3 10) (Num.dec 5 10)
                                    (Num.dec 52 10) 8;
       material := mat;
       position := (x, Num.dec 26 10, z);
       rotation := origin |} in
  let branch1 :=
    {| geometry := CylinderGeometry (Num.dec 12 100) (Num.dec 2 10)
                                    (Num.dec 26 10) 6;
       material := mat;
       position := (x + Num.dec 8 10, n 4, z);
       rotation := (Num.zero, Num.zero, Num.dec (-9) 10) |} in
  let branch2 :=
    {| geometry := CylinderGeometry (Num.dec 10 100) (Num.dec 18 100)
                                    (Num.dec 22 10) 6;
       material := mat;
       position := (x - Num.dec 7 10, Num.dec 36 10, z - Num.dec 4 10);
       rotation := (Num.zero, Num.zero, Num.dec 85 100) |} in
  scene_add [OMesh trunk; OMesh branch1; OMesh branch2] ;;;
  ret {| id := "dead_tree"; name := name; type := "tree";
         lm_x := x; lm_z := z |}.

Definition addLandmarks : M (list landmark) :=
  l1 <- stone_ring ;;
  l2 <- pond ;;
  l3 <- watch_rock ;;
  l4 <- dead_tree ;;
  ret [l1; l2; l3; l4].

(** *** [createWorld] and its inner functions *)

(** The ground plane. *)
Definition ground (worldSize : float) : Mesh :=
  {| geometry := PlaneGeometry worldSize worldSize 1 1;
     material := standard 0x2f6b3a (n 1);
     position := origin;
     rotation := (half_pi_neg, Num.zero, Num.zero) |}.

(** [addPatch(x, z, r, color)] *)
Definition addPatch (x z r : float) (color : Z) : M unit :=
  scene_add [OMesh {| geometry := CircleGeometry r 24;
                      material := standard color (n 1);
                      position := (x, Num.dec 1 100, z);
                      rotation := (half_pi_neg, Num.zero, Num.zero) |}] ;;;
  patches_push {| patch_x := x; patch_z := z; patch_r := r;
                  patch_color := color |}.

(** The body of the patch loop; the three arguments are evaluated from
    left to right. *)
Definition patch_step (_ : unit) : M unit :=
  r1 <- rng_rand ;;
  r2 <- rng_rand ;;
  r3 <- rng_rand ;;
  addPatch ((r1 - Num.dec 5 10) * n 350)
           ((r2 - Num.dec 5 10) * n 350)
           (n 6 + r3 * n 14)
           0x2b5f34.

Definition pathMat : Material := standard 0xa58b5a (n 1).

(** The argument object of [carvePath]; [steps] is an integer, [width]
    and [turnChance] may be left out. *)
Record carve_args : Type := {
  startX : float;
  startZ : float;
  steps : Z;
  stepLen : float;
  arg_width : option float;
  arg_turnChance : option float
}.

(** The variables carried by the loop of [carvePath]. *)
Record walk : Type := {
  w_x : float;
  w_z : float;
  w_ang : float;
  w_poly : list point
}.

Definition carve_step (stepLen width turnChance : float) (w : walk)
  : M walk :=
  let x := w_x w in
  let z := w_z w in
  r <- rng_rand ;;
  ang <- (if r <? turnChance
          then r' <- rng_rand ;;
               ret (w_ang w + (r' - Num.dec 5 10) * Num.dec 12 10)
          else ret (w_ang w)) ;;
  let nx := x + Math_cos ang * stepLen in
  let nz := z + Math_sin ang * stepLen in
  let midX := (x + nx) / n 2 in
  let midZ := (z + nz) / n 2 in
  let rot := Math_atan2 (nz - z) (nx - x) in
  addPathSegment pathMat midX midZ width (stepLen + Num.dec 5 10) (- rot) ;;;
  ret {| w_x := nx; w_z := nz; w_ang := ang;
         w_poly := w_poly w ++ [v2 nx nz] |}.

Definition carvePath (a : carve_args) : M unit :=
  let width := match arg_width a with
               | Some w => w | None => n 5 end in
  let turnChance := match arg_turnChance a with
                    | Some c => c | None => Num.dec 12 100 end in
  let x := startX a in
  let z := startZ a in
  r <- rng_rand ;;
  let ang := r * Num.PI * n 2 in
  w <- for_loop (Z.to_nat (steps a))
         (carve_step (stepLen a) width turnChance)
         {| w_x := x; w_z := z; w_ang := ang; w_poly := [v2 x z] |} ;;
  paths_push {| width := width; points := w_poly w |}.

Definition trunkMat : Material := standard 0x5b3a22 (n 1).
Definition leafMat : Material := standard 0x1f4f2c (n 1).

Record corridor : Type := { c_x : float; c_z : float; c_r : float }.

Definition corridors : list corridor :=
  [ {| c_x := n (-60); c_z := n 20; c_r := n 22 |};
    {| c_x := n 40; c_z := n (-30); c_r := n 22 |};
    {| c_x := n 0; c_z := n 0; c_r := n 20 |} ].

Definition in_corridor (x z : float) (c : corridor) : bool :=
  let dx := x - c_x c in
  let dz := z - c_z c in
  (dx * dx + dz * dz) <? (c_r c * c_r c).

Definition nearCorridor (x z : float) : bool :=
  existsb (in_corridor x z) corridors.

Definition treeCount : nat := 650.

(** The body of the tree loop.  The right operand of [&&] is evaluated
    only when [nearCorridor] holds; [continue] leaves the body. *)
Definition tree_step (_ : unit) : M unit :=
  rx <- rng_rand ;;
  let x := (rx - Num.dec 5 10) * n 360 in
  rz <- rng_rand ;;
  let z := (rz - Num.dec 5 10) * n 360 in
  skip <- (if nearCorridor x z
           then r <- rng_rand ;; ret (r <? Num.dec 75 100)
           else ret false) ;;
  if (skip : bool) then ret tt
  else rs <- rng_rand ;;
       addTree trunkMat leafMat x z (Num.dec 75 100 + rs * Num.dec 9 10).

(** The argument object of [createWorld]; [worldSize] and [bounds] may
    be left out. *)
Record world_args : Type := {
  scene : list Object3D;
  rng : Rng.rng;
  worldSize : option float;
  arg_bounds : option float
}.

Definition generate (worldSize bounds : float) : M world :=
  scene_add [OMesh (ground worldSize)] ;;;
  for_loop 70 patch_step tt ;;;
  carvePath {| startX := n (-60); startZ := n 20; steps := 75;
               stepLen := n 7; arg_width := Some (n 5);
               arg_turnChance := None |} ;;;
  carvePath {| startX := n 40; startZ := n (-30); steps := 75;
               stepLen := n 7; arg_width := Some (n 5);
               arg_turnChance := None |} ;;;
  carvePath {| startX := n 0; startZ := n 0; steps := 55;
               stepLen := n 8; arg_width := Some (Num.dec 52 10);
               arg_turnChance := None |} ;;;
  for_loop treeCount tree_step tt ;;;
  landmarks <- addLandmarks ;;
  fun st =>
    ({| bounds := bounds; patches := g_patches st; paths := g_paths st;
        landmarks := landmarks |}, st).

(** [createWorld] returns the world; the scene and the generator it was
    given are left in the states returned with it. *)
Definition createWorld (a : world_args)
  : world * (list Object3D * Rng.rng) :=
  let worldSize := match worldSize a with
                   | Some w => w | None => n 500 end in
  let bounds := match arg_bounds a with
                | Some b => b | None => n 240 end in
  let '(w, st) := generate worldSize bounds
                    {| g_rng := rng a; g_scene := scene a;
                       g_patches := []; g_paths := [] |} in
  (w, (g_scene st, g_rng st)).

End Generator.

(** The state with another scene. *)
Definition with_scene (sc : list Object3D) (st : gen_state) : gen_state :=
  {| g_rng := g_rng st; g_scene := sc;
     g_patches := g_patches st; g_paths := g_paths st |}.

(** A computation leaves the component [f] of the state alone. *)
Definition stable {A B : Type} (f : gen_state -> B) (m : M A) : Prop :=
  forall st, f (snd (m st)) = f st.

(** A computation only adds to the scene, and what it adds, returns and
    does to the rest of the state does not depend on what the scene
    held. *)
Definition framed {A : Type} (m : M A) : Prop :=
  forall st sc,
    m (with_scene sc st)
    = (fst (m (with_scene [] st)),
       with_scene (sc ++ g_scene (snd (m (with_scene [] st))))
                  (snd (m (with_scene [] st)))).

(** [createWorld] called with a scene and a generator made by
    [createRng()], nothing else: the seed "default" and every parameter
    at its default. *)
Definition default_args (sc : list Object3D) : world_args :=
  {| scene := sc; rng := Rng.createRng Rng.SeedUndefined;
     worldSize := None; arg_bounds := None |}.

End World.

(* ================================================================== *)
(** ** The notions of the specification *)

Module Spec.
Local Open Scope float_scope.

(** A number in [[0,1)]. *)
Definition in_unit (v : float) : bool :=
  Num.leb Num.zero v && Num.ltb v Num.one.

(** Membership in an exclusion circle by an inclusive comparison of
    squared distances, as the specification words it. *)
Definition inside_inclusive (x z : float) (c : World.corridor) : bool :=
  let dx := x - World.c_x c in
  let dz := z - World.c_z c in
  Num.leb (dx * dx + dz * dz) (World.c_r c * World.c_r c).

Definition in_some_zone (x z : float) : bool :=
  existsb (inside_inclusive x z) World.corridors.

(** An extent is valid when it is a number greater than zero; a
    configuration is invalid when [worldSize] or [bounds] is given and is
    not a valid extent. *)
Definition valid_extent (x : float) : bool := Num.ltb Num.zero x.

Definition invalid_configuration (worldSize bounds : option float) : bool :=
  match worldSize with Some w => negb (valid_extent w) | None => false end
  || match bounds with Some b => negb (valid_extent b) | None => false end.


End Spec.

(* ================================================================== *)
(** ** An implementation of the three library functions

    The statements below hold for every implementation of [Math.cos],
    [Math.sin] and [Math.atan2].  Closed examples need one: they use the
    truncated series below, which are not meant to be accurate. *)

Module Sample.
Local Open Scope float_scope.

Definition cos (a : float) : float :=
  let a2 := a * a in
  Num.one - a2 / Num.of_Z 2 + a2 * a2 / Num.of_Z 24.

Definition sin (a : float) : float :=
  let a2 := a * a in
  a - a * a2 / Num.of_Z 6 + a * a2 * a2 / Num.of_Z 120.

Definition atan2 (y x : float) : float :=
  if Num.eqb x Num.zero then Num.zero
  else let q := y / x in q - q * q * q / Num.of_Z 3.

End Sample.

(* ================================================================== *)
(** ** The tree loop for any generator object

    [createWorld] takes [rng] as an argument and uses it only by calling
    [rng.rand()].  One iteration of the tree loop is given here for any
    such object: a state [G] and the function [rand], which returns the
    number drawn and the state after the call. *)

Module Scatter.
Import World.
Local Open Scope float_scope.

Section Candidate.
Variable G : Type.
Variable rand : G -> float * G.

(** One iteration: the position and the size handed to [addTree], or
    [None] when the iteration is left by [continue], and the generator
    after it. *)
Definition candidate (g : G) : option (float * float * float) * G :=
  let '(rx, g1) := rand g in
  let x := (rx - Num.dec 5 10) * n 360 in
  let '(rz, g2) := rand g1 in
  let z := (rz - Num.dec 5 10) * n 360 in
  if nearCorridor x z then
    let '(r, g3) := rand g2 in
    if r <? Num.dec 75 100 then (None, g3)
    else let '(rs, g4) := rand g3 in
         (Some (x, z, Num.dec 75 100 + rs * Num.dec 9 10), g4)
  else
    let '(rs, g3) := rand g2 in
    (Some (x, z, Num.dec 75 100 + rs * Num.dec 9 10), g3).

End Candidate.


End Scatter.

(* ================================================================== *)
(** ** src/map.js: the map overlay *)

Module MapOverlay.
Import World.
Local Open Scope float_scope.

(** [Math.max(a, b)] and [Math.min(a, b)]: NaN when an argument is NaN;
    of two zeros, [max] takes +0 and [min] takes -0. *)
Definition Math_max (a b : float) : float :=
  match a, b with
  | S754_zero sa, S754_zero sb => S754_zero (sa && sb)
  | _, _ => match SFcompare a b with
            | Some Lt => b
            | Some _ => a
            | None => Num.NaN
            end
  end.

Definition Math_min (a b : float) : float :=
  match a, b with
  | S754_zero sa, S754_zero sb => S754_zero (sa || sb)
  | _, _ => match SFcompare a b with
            | Some Gt => b
            | Some _ => a
            | None => Num.NaN
            end
  end.

(** A number is falsy when it is a zero or NaN. *)
Definition truthy (x : float) : bool :=
  match x with
  | S754_zero _ | S754_nan => false
  | _ => true
  end.

(** [Math.min(window.devicePixelRatio || 1, 2)]; [None] is an undefined
    [devicePixelRatio]. *)
Definition device_ratio (devicePixelRatio : option float) : float :=
  let v := match devicePixelRatio with
           | Some d => if truthy d then d else n 1
           | None => n 1
           end in
  Math_min v (n 2).

(** The size [resizeCanvasToDisplaySize] computes for one side of the
    canvas: [Math.max(1, Math.floor(side * dpr))]. *)
Definition canvas_side (side dpr : float) : float :=
  Math_max (n 1) (Num.floor (side * dpr)).

(** What the overlay reads of the world: [world.bounds ?? 240],
    [world.paths ?? []], [path.width ?? 5], [path.points ?? []],
    [world.landmarks ?? []]; [None] is a missing (or null) field. *)
Record map_path : Type := {
  mp_width : option float;
  mp_points : option (list point)
}.

Record map_world : Type := {
  mw_bounds : option float;
  mw_paths : option (list map_path);
  mw_landmarks : option (list landmark)
}.

(** The world returned by [createWorld], as the overlay receives it. *)
Definition view (w : world) : map_world :=
  {| mw_bounds := Some (bounds w);
     mw_paths := Some (map (fun p => {| mp_width := Some (width p);
                                        mp_points := Some (points p) |})
                           (paths w));
     mw_landmarks := Some (landmarks w) |}.

(** [worldToMap(ctx, x, z)] on a canvas of size [w] by [h]. *)
Definition worldToMap (world : map_world) (w h x z : float) : float * float :=
  let pad := n 34 in
  let b := match mw_bounds world with Some b => b | None => n 240 end in
  let nx := (x + b) / (n 2 * b) in
  let nz := (z + b) / (n 2 * b) in
  (pad + nx * (w - pad * n 2), pad + (n 1 - nz) * (h - pad * n 2)).

(** The calls made on the 2D context, in order.  An assignment to a
    property of the context is a call of its setter; the font is given by
    the size put in front of the fixed family list. *)
Inductive cmd : Type :=
| ClearRect (x y w h : float)
| FillStyle (s : string)
| StrokeStyle (s : string)
| LineWidth (w : float)
| LineCap (s : string)
| LineJoin (s : string)
| Font (px : float)
| FillRect (x y w h : float)
| StrokeRect (x y w h : float)
| Save
| Restore
| Translate (x y : float)
| BeginPath
| ClosePath
| MoveTo (x y : float)
| LineTo (x y : float)
| Arc (x y r a0 a1 : float)
| Stroke
| Fill
| FillText (text : string) (x y : float).

Section Draw.

(** The canvas size read by [draw] after the resize, the ratio returned
    by the resize, and the values returned by the successive calls of
    [Math.random]. *)
Variables cw ch dpr : float.
Variable Math_random : nat -> float.
Variable world : map_world.

Definition noise (i : nat) : cmd :=
  let x := Math_random (2 * i) * cw in
  let y := Math_random (2 * i + 1) * ch in
  FillRect x y (n 1) (n 1).

Definition background : list cmd :=
  [ ClearRect (n 0) (n 0) cw ch;
    FillStyle "rgba(12,12,16,0.35)";
    FillRect (n 0) (n 0) cw ch;
    FillStyle "rgba(255,255,255,0.02)" ]
  ++ map noise (seq 0 2200)
  ++ [ StrokeStyle "rgba(255,255,255,0.16)";
       LineWidth (Math_max (n 1) (n 2 * dpr));
       StrokeRect (n 16 * dpr) (n 16 * dpr)
                  (cw - n 32 * dpr) (ch - n 32 * dpr) ].

Definition north_arrow : list cmd :=
  [ Save;
    Translate (cw - n 70 * dpr) (n 60 * dpr);
    StrokeStyle "rgba(255,255,255,0.65)";
    FillStyle "rgba(255,255,255,0.65)";
    LineWidth (Math_max (n 1) (n 2 * dpr));
    BeginPath;
    MoveTo (n 0) (n 28 * dpr);
    LineTo (n 0) (n (-18) * dpr);
    Stroke;
    BeginPath;
    MoveTo (n 0) (n (-22) * dpr);
    LineTo (n (-7) * dpr) (n (-10) * dpr);
    LineTo (n 7 * dpr) (n (-10) * dpr);
    ClosePath;
    Fill;
    FillText "N" (n 10 * dpr) (n (-8) * dpr);
    Restore ].

Definition to_map (p : point) : float * float :=
  worldToMap world cw ch (px p) (pz p).

(** The body of the loop over the paths. *)
Definition draw_path (path : map_path) : list cmd :=
  let width := match mp_width path with Some w => w | None => n 5 end
               * Num.dec 9 10 in
  let pts := match mp_points path with Some l => l | None => [] end in
  LineWidth (Math_max (n 1) (width * Num.dec 7 10 * dpr))
  :: match pts with
     | p0 :: (_ :: _) as rest =>
         [ BeginPath; MoveTo (fst (to_map p0)) (snd (to_map p0)) ]
         ++ map (fun p => LineTo (fst (to_map p)) (snd (to_map p))) rest
         ++ [ Stroke ]
     | _ => []   (* pts.length < 2: continue *)
     end.

Definition draw_paths : list cmd :=
  [ StrokeStyle "rgba(195,165,115,0.9)"; LineCap "round"; LineJoin "round" ]
  ++ flat_map draw_path
       (match mw_paths world with Some l => l | None => [] end).

(** The colour of a landmark: four assignments under four tests, in the
    order of the code. *)
Definition landmark_color (type : string) : string :=
  let color := "rgba(220,220,220,0.85)"%string in
  let color := if String.eqb type "water"
               then "rgba(120,175,255,0.9)"%string else color in
  let color := if String.eqb type "stone"
               then "rgba(210,210,210,0.85)"%string else color in
  let color := if String.eqb type "rock"
               then "rgba(175,190,205,0.85)"%string else color in
  let color := if String.eqb type "tree"
               then "rgba(205,160,120,0.85)"%string else color in
  color.

Definition draw_landmark (lm : landmark) : list cmd :=
  let p := worldToMap world cw ch (lm_x lm) (lm_z lm) in
  [ FillStyle (landmark_color (type lm));
    StrokeStyle "rgba(0,0,0,0.6)";
    LineWidth (Math_max (n 1) (n 2 * dpr));
    BeginPath;
    Arc (fst p) (snd p) (n 6 * dpr) (n 0) (Num.PI * n 2);
    Fill;
    Stroke;
    FillStyle "rgba(255,255,255,0.86)";
    Font (Num.floor (n 12 * dpr));
    FillText (name lm) (fst p + n 10 * dpr) (snd p - n 8 * dpr) ].

Definition draw_landmarks : list cmd :=
  flat_map draw_landmark
    (match mw_landmarks world with Some l => l | None => [] end).

(** [draw], once the context has been obtained. *)
Definition draw : list cmd :=
  background ++ north_arrow ++ draw_paths ++ draw_landmarks.

End Draw.

(** *** Opening and closing *)

Record config : Type := {
  toggleKey : Rng.jsstring;
  has_onOpen : bool;     (* typeof onOpen === "function" *)
  has_onClose : bool     (* typeof onClose === "function" *)
}.

(** What the overlay does to the outside: the calls of the two callbacks
    and of [draw].  A callback is taken to return, and not to call the
    overlay back. *)
Inductive effect : Type := CallOnOpen | CallOnClose | Draw.

Record overlay : Type := {
  isOpen : bool;
  display : string;      (* root.style.display *)
  effects : list effect
}.

(** The state [createMapOverlay] leaves: closed, [display: none]. *)
Definition created : overlay :=
  {| isOpen := false; display := "none"; effects := [] |}.

Definition redraw (st : overlay) : overlay :=
  {| isOpen := isOpen st; display := display st;
     effects := effects st ++ [Draw] |}.

Definition open (c : config) (st : overlay) : overlay :=
  if isOpen st then st
  else redraw
         {| isOpen := true; display := "flex";
            effects := effects st
                       ++ (if has_onOpen c then [CallOnOpen] else []) |}.

Definition close (c : config) (st : overlay) : overlay :=
  if negb (isOpen st) then st
  else {| isOpen := false; display := "none";
          effects := effects st
                     ++ (if has_onClose c then [CallOnClose] else []) |}.

Definition toggle (c : config) (st : overlay) : overlay :=
  if isOpen st then close c st else open c st.

(** What reaches the overlay: the listeners it registers and the methods
    of the object it returns. *)
Inductive input : Type :=
| KeyDown (key : Rng.jsstring)
| ClickBackground
| ClickPanel
| WindowResize
| CallOpen
| CallClose
| CallToggle
| CallRedraw.

(** [a === b] on strings. *)
Fixpoint units_eqb (a b : Rng.jsstring) : bool :=
  match a, b with
  | [], [] => true
  | x :: a', y :: b' => (x =? y)%Z && units_eqb a' b'
  | _, _ => false
  end.

Section Handlers.

(** [String.prototype.toLowerCase]. *)
Variable toLowerCase : Rng.jsstring -> Rng.jsstring.

Definition handle (c : config) (st : overlay) (i : input) : overlay :=
  match i with
  | KeyDown key =>
      if units_eqb (toLowerCase key) (toggleKey c) then toggle c st else st
  | ClickBackground => close c st
  | ClickPanel => st            (* stopPropagation *)
  | WindowResize => if isOpen st then redraw st else st
  | CallOpen => open c st
  | CallClose => close c st
  | CallToggle => toggle c st
  | CallRedraw => redraw st
  end.

Definition run (c : config) (inputs : list input) : overlay :=
  fold_left (handle c) inputs created.

End Handlers.

(** Lower case on the ASCII letters, for closed examples. *)
Definition ascii_lower (s : Rng.jsstring) : Rng.jsstring :=
  map (fun c => if (65 <=? c)%Z && (c <=? 90)%Z then (c + 32)%Z else c) s.

(** Counting the calls of one kind in a list of calls. *)
Definition is_LineTo (c : cmd) : bool :=
  match c with LineTo _ _ => true | _ => false end.

Definition is_Stroke (c : cmd) : bool :=
  match c with Stroke => true | _ => false end.

Definition is_Arc (c : cmd) : bool :=
  match c with Arc _ _ _ _ _ => true | _ => false end.

Definition count (f : cmd -> bool) (l : list cmd) : nat :=
  List.length (filter f l).

Fixpoint texts (l : list cmd) : list string :=
  match l with
  | [] => []
  | FillText t _ _ :: l' => t :: texts l'
  | _ :: l' => texts l'
  end.

Definition is_finite (x : float) : bool :=
  match x with
  | S754_zero _ | S754_finite _ _ _ => true
  | _ => false
  end.

(** The number of calls of one kind the overlay has made. *)
Definition effect_eqb (a b : effect) : bool :=
  match a, b with
  | CallOnOpen, CallOnOpen | CallOnClose, CallOnClose | Draw, Draw => true
  | _, _ => false
  end.

Definition calls (e : effect) (st : overlay) : nat :=
  List.length (filter (effect_eqb e) (effects st)).

End MapOverlay.

(* ================================================================== *)
(** ** Reference definitions

    The published algorithms the code of [src/rng.js] names, in unsigned
    32-bit arithmetic, and the numbers [N * 2^f] that binary64 holds
    exactly; the code is compared with them below. *)

Module Dyadic.
(** The binary64 number [N * 2^f], for [|N| < 2^53] and [f] in the normal
    range, with its mantissa on 53 bits. *)
Definition canon (N f : Z) : float :=
  match N with
  | Z0 => S754_zero false
  | Zpos p =>
      let k := 53 - Zpos (digits2_pos p) in
      S754_finite false (Z.to_pos (Zpos p * 2 ^ k)) (f - k)
  | Zneg p =>
      let k := 53 - Zpos (digits2_pos p) in
      S754_finite true (Z.to_pos (Zpos p * 2 ^ k)) (f - k)
  end.
End Dyadic.

Module Reference.

(** FNV-1a on 32 bits, in unsigned arithmetic: offset basis 2166136261,
    prime 16777619. *)
Definition fnv1a (str : list Z) : Z :=
  fold_left (fun h c => (Z.lxor h c * 16777619) mod 4294967296)
            str 2166136261.

(** The mixing function of mulberry32 on an unsigned 32-bit word. *)
Definition mix32 (z : Z) : Z :=
  let z := (Z.lxor z (Z.shiftr z 15) * Z.lor z 1) mod 4294967296 in
  let z := Z.lxor z ((z + Z.lxor z (Z.shiftr z 7) * Z.lor z 61)
                     mod 4294967296) in
  Z.lxor z (Z.shiftr z 14).

(** mulberry32 with a counter that wraps at [2^32]. *)
Definition next32 (c : Z) : float * Z :=
  let c := (c + 0x6D2B79F5) mod 4294967296 in
  (Num.div (Num.of_Z (mix32 c)) (Num.of_Z 4294967296), c).

Fixpoint stream32 (k : nat) (c : Z) : list float :=
  match k with
  | O => []
  | S k' => fst (next32 c) :: stream32 k' (snd (next32 c))
  end.

End Reference.

(* ================================================================== *)
(** ** Ranges and draw counts *)

Module WorldDefs.
Import Scene World.
(** A coordinate in [[-h, h)]. *)
Definition in_square (h : Z) (x : float) : bool :=
  Num.leb (Num.of_Z (- h)) x && Num.ltb x (Num.of_Z h).

Definition patch_in_range (p : patch) : Prop :=
  in_square 175 (patch_x p) = true
  /\ in_square 175 (patch_z p) = true
  /\ Num.leb (Num.of_Z 6) (patch_r p) = true
  /\ Num.ltb (patch_r p) (Num.of_Z 20) = true
  /\ patch_color p = 0x2b5f34.

(** A computation makes between [lo] and [hi] draws. *)
Definition draws {A : Type} (lo hi : nat) (m : M A) : Prop :=
  forall st, exists k, (lo <= k <= hi)%nat
                       /\ g_rng (snd (m st)) = Rng.skip k (g_rng st).
End WorldDefs.

(* ================================================================== *)
(** * Properties *)

(** ** Numbers: exact cases of the binary64 operations *)

Module NumFacts.

Lemma digits2_pos_range (p : positive) :
  2 ^ (Zpos (digits2_pos p) - 1) <= Zpos p < 2 ^ Zpos (digits2_pos p).
Proof.
  induction p as [p IH | p IH |]; cbn [digits2_pos].
  - rewrite Pos2Z.inj_succ.
    replace (Z.succ (Zpos (digits2_pos p)) - 1)
      with (Z.succ (Zpos (digits2_pos p) - 1)) by lia.
    rewrite !Z.pow_succ_r by lia. lia.
  - rewrite Pos2Z.inj_succ.
    replace (Z.succ (Zpos (digits2_pos p)) - 1)
      with (Z.succ (Zpos (digits2_pos p) - 1)) by lia.
    rewrite !Z.pow_succ_r by lia. lia.
  - cbn. lia.
Qed.

Lemma digits2_pos_le (p : positive) (k : Z) :
  0 <= k -> Zpos p < 2 ^ k -> Zpos (digits2_pos p) <= k.
Proof.
  intros Hk Hp.
  destruct (Z_le_gt_dec (Zpos (digits2_pos p)) k) as [|Hgt]; [assumption|].
  pose proof (digits2_pos_range p) as [Hlo _].
  assert (2 ^ k <= 2 ^ (Zpos (digits2_pos p) - 1))
    by (apply Z.pow_le_mono_r; lia).
  lia.
Qed.

Lemma digits2_pos_iter_xO (p k : positive) :
  digits2_pos (Pos.iter xO p k) = (digits2_pos p + k)%positive.
Proof.
  induction k as [|k IH] using Pos.peano_ind.
  - cbn. lia.
  - rewrite Pos.iter_succ. cbn [digits2_pos]. rewrite IH. lia.
Qed.

(** A mantissa of 53 bits with an exponent in range is left as it is by
    the final rounding. *)
Lemma binary_round_aux_canonical (s : bool) (m : positive) (e : Z) :
  Zpos (digits2_pos m) = 53 -> -1074 <= e <= 971 ->
  binary_round_aux Num.prec Num.emax s (Zpos m) e loc_Exact
  = S754_finite s m e.
Proof.
  intros Hd He.
  assert (Hshift : fexp Num.prec Num.emax (Zdigits2 (Zpos m) + e) - e = 0).
  { unfold fexp, emin, Num.prec, Num.emax. cbn [Zdigits2]. lia. }
  unfold binary_round_aux, shr_fexp.
  rewrite Hshift. cbn [shr shr_record_of_loc shr_m loc_of_shr_record
                       round_nearest_even].
  rewrite Hshift. cbn [shr shr_record_of_loc shr_m].
  replace (e <=? Num.emax - Num.prec) with true; [reflexivity|].
  symmetry. apply Z.leb_le. unfold Num.emax, Num.prec. lia.
Qed.

(** The number of a positive integer below [2^53]: its mantissa shifted
    to 53 bits. *)
Lemma of_Z_pos (p : positive) :
  Zpos (digits2_pos p) < 53 ->
  exists m, Zpos (digits2_pos m) = 53 /\
            Num.of_Z (Zpos p)
            = S754_finite false m (Zpos (digits2_pos p) - 53).
Proof.
  intros Hd.
  unfold Num.of_Z, binary_normalize, binary_round, shl_align.
  assert (Hf : fexp Num.prec Num.emax (Zpos (digits2_pos p) + 0)
               = Zpos (digits2_pos p) - 53).
  { unfold fexp, emin, Num.prec, Num.emax. lia. }
  rewrite Hf.
  destruct (Zpos (digits2_pos p) - 53 - 0) as [|k|k] eqn:Hk; try lia.
  exists (Pos.iter xO p k). split.
  - rewrite digits2_pos_iter_xO. lia.
  - apply binary_round_aux_canonical.
    + rewrite digits2_pos_iter_xO. lia.
    + lia.
Qed.

Lemma div_eucl_shift53 (m : positive) :
  Z.div_eucl (Z.shiftl (Zpos m) 53) 4503599627370496 = (Zpos m~0, 0).
Proof.
  assert (Ha : Z.shiftl (Zpos m) 53 = Zpos m~0 * 4503599627370496).
  { rewrite Z.shiftl_mul_pow2 by lia.
    change (2 ^ 53) with 9007199254740992. lia. }
  rewrite Ha.
  pose proof (Z.div_mul (Zpos m~0) 4503599627370496 ltac:(lia)) as Hq.
  pose proof (Z.mod_mul (Zpos m~0) 4503599627370496 ltac:(lia)) as Hr.
  unfold Z.div, Z.modulo in Hq, Hr.
  destruct (Z.div_eucl (Zpos m~0 * 4503599627370496) 4503599627370496).
  congruence.
Qed.

(** A mantissa of 54 bits whose last bit is 0 loses that bit exactly. *)
Lemma binary_round_aux_even (s : bool) (m : positive) (e : Z) :
  Zpos (digits2_pos m) = 53 -> -1075 <= e <= 970 ->
  binary_round_aux Num.prec Num.emax s (Zpos m~0) e loc_Exact
  = S754_finite s m (e + 1).
Proof.
  intros Hd He.
  assert (H1 : fexp Num.prec Num.emax (Zdigits2 (Zpos m~0) + e) - e = 1).
  { unfold fexp, emin, Num.prec, Num.emax. cbn [Zdigits2 digits2_pos].
    rewrite Pos2Z.inj_succ. lia. }
  assert (H2 : fexp Num.prec Num.emax (Zdigits2 (Zpos m) + (e + 1)) - (e + 1)
               = 0).
  { unfold fexp, emin, Num.prec, Num.emax. cbn [Zdigits2]. lia. }
  unfold binary_round_aux, shr_fexp.
  rewrite H1.
  cbn [shr iter_pos shr_1 shr_record_of_loc shr_m loc_of_shr_record
       round_nearest_even orb].
  rewrite H2. cbn [shr shr_record_of_loc shr_m].
  replace (e + 1 <=? Num.emax - Num.prec) with true; [reflexivity|].
  symmetry. apply Z.leb_le. unfold Num.emax, Num.prec. lia.
Qed.

(** Dividing a normal number by [2^32] lowers its exponent by 32. *)
Lemma div_two32 (m : positive) (e : Z) :
  Zpos (digits2_pos m) = 53 -> -1041 <= e <= 971 ->
  Num.div (S754_finite false m e) (Num.of_Z 4294967296)
  = S754_finite false m (e - 32).
Proof.
  intros Hd He.
  change (Num.of_Z 4294967296)
    with (S754_finite false 4503599627370496 (-20)).
  unfold Num.div, SFdiv, SFdiv_core_binary.
  assert (He' : Z.min (fexp Num.prec Num.emax
                         (Zdigits2 (Zpos m) + e
                          - (Zdigits2 4503599627370496 + -20)))
                      (e - -20) = e - 33).
  { change (Zdigits2 4503599627370496) with 53.
    unfold fexp, emin, Num.prec, Num.emax. cbn [Zdigits2]. lia. }
  rewrite He'.
  replace (e - -20 - (e - 33)) with 53 by lia.
  rewrite div_eucl_shift53.
  change (new_location 4503599627370496 0) with loc_Exact.
  cbn [xorb].
  rewrite binary_round_aux_even by (assumption || lia).
  f_equal. lia.
Qed.

(** The result of [rand]: a 32-bit word divided by [2^32] is a number
    in [0,1). *)
Lemma uint32_fraction (u : Z) :
  0 <= u < 4294967296 ->
  let r := Num.div (Num.of_Z u) (Num.of_Z 4294967296) in
  Num.leb Num.zero r = true /\ Num.ltb r Num.one = true.
Proof.
  intros Hu r. subst r.
  destruct u as [|p|p]; [split; reflexivity | | lia].
  assert (Hp : Zpos (digits2_pos p) <= 32)
    by (apply digits2_pos_le; [lia|]; change (2 ^ 32) with 4294967296; lia).
  destruct (of_Z_pos p ltac:(lia)) as (m & Hm & ->).
  rewrite div_two32 by (assumption || lia).
  split; [reflexivity|].
  change Num.one with (S754_finite false 4503599627370496 (-52)).
  unfold Num.ltb, SFltb, SFcompare.
  replace (Zpos (digits2_pos p) - 53 - 32 ?= -52) with Lt; [reflexivity|].
  symmetry. apply Z.compare_lt_iff. lia.
Qed.

End NumFacts.

(* ================================================================== *)
(** ** The generator of src/rng.js *)

Module RngFacts.
Import Int32 Rng.

Lemma ToUint32_range (z : Z) : 0 <= ToUint32 z < 4294967296.
Proof. unfold ToUint32, two32. apply Z.mod_pos_bound. lia. Qed.

Lemma ToUint32_mod (z : Z) : ToUint32 (z mod 4294967296) = ToUint32 z.
Proof. unfold ToUint32, two32. apply Z.mod_mod. lia. Qed.

Lemma ToInt32_mod (z : Z) : ToInt32 (z mod 4294967296) = ToInt32 z.
Proof. unfold ToInt32, two32. rewrite Z.mod_mod by lia. reflexivity. Qed.

Lemma mix_range (t : Z) : 0 <= mix t < 4294967296.
Proof.
  unfold mix, ushr at 1.
  change (0 mod 32) with 0. rewrite Z.shiftr_0_r.
  apply ToUint32_range.
Qed.

(** The mixing reads [t] through [ToInt32] and [ToUint32] only. *)
Lemma mix_mod (t : Z) : mix (t mod 4294967296) = mix t.
Proof.
  unfold mix, xor, or, ushr.
  rewrite !ToInt32_mod, !ToUint32_mod. reflexivity.
Qed.

Lemma round53_small (n : Z) : n < two53 -> round53 n = n.
Proof.
  intros H. unfold round53.
  destruct (n <? two53) eqn:E; [reflexivity|].
  apply Z.ltb_ge in E. lia.
Qed.

Lemma mulberry32_range (x : float) : 0 <= mulberry32 x < 4294967296.
Proof.
  unfold mulberry32, ToUint32_float.
  destruct (Num.trunc x); [apply ToUint32_range | lia].
Qed.

Lemma createRng_range (s : seed_arg) : 0 <= t (createRng s) < 4294967296.
Proof. unfold createRng. cbn [t]. apply mulberry32_range. Qed.

Lemma next_t (r : rng) : t (snd (next r)) = advance (t r).
Proof. reflexivity. Qed.

Lemma next_value (r : rng) :
  fst (next r)
  = Num.div (Num.of_Z (mix (advance (t r)))) (Num.of_Z 4294967296).
Proof. reflexivity. Qed.

Lemma next_in_unit (r : rng) : Spec.in_unit (fst (next r)) = true.
Proof.
  rewrite next_value. unfold Spec.in_unit.
  destruct (NumFacts.uint32_fraction (mix (advance (t r))) (mix_range _))
    as [H0 H1].
  rewrite H0, H1. reflexivity.
Qed.

(** While the counter stays below [2^53] no addition is rounded. *)
Lemma skip_exact (k : nat) :
  forall r, 0 <= t r -> t r + Z.of_nat k * increment < two53 ->
            t (skip k r) = t r + Z.of_nat k * increment.
Proof.
  unfold increment, two53.
  induction k as [|k IH]; intros r H0 Hb; cbn [skip].
  - lia.
  - rewrite IH; rewrite next_t; unfold advance, increment;
      rewrite round53_small by (unfold two53; lia); lia.
Qed.

Lemma array_get_nil (A : Type) (i : float) : array_get (@nil A) i = None.
Proof.
  unfold array_get.
  destruct (Num.to_integer i) as [z|]; [|reflexivity].
  destruct (z <? 0); [reflexivity|].
  destruct (Z.to_nat z); reflexivity.
Qed.

(** Known values: the FNV-1a hashes of "default" and of the empty
    string, and the first draw of [mulberry32(0)],
    0.26642920868471265 = 1144304738 / 2^32. *)
Example hash_default :
  hashStringToUint32 (units_of "default") = 2470140894.
Proof. reflexivity. Qed.

Example hash_empty : hashStringToUint32 [] = 2166136261.
Proof. reflexivity. Qed.

Example first_draw_of_seed_0 :
  fst (rand (mulberry32 Num.zero))
  = S754_finite false 4799561939812352 (-54)
  /\ mix (advance 0) = 1144304738.
Proof. split; vm_compute; reflexivity. Qed.

(** [round53] is the addition of numbers: on counters below and above
    [2^53] (with a tie, and with a sum that is absorbed) it gives the
    integer that [Num.add] gives. *)
Example round53_is_number_addition :
  forallb
    (fun t => match Num.trunc (Num.add (Num.of_Z t) (Num.of_Z increment)) with
              | Some z => z =? advance t
              | None => false
              end)
    [0; 4294967295; 2470140894; 9007199254740990; 9007199254740994;
     9007199254740996; 1152921504606846976; 2 ^ 83; 2 ^ 84; 2 ^ 84 + 2 ^ 32]
  = true.
Proof. vm_compute. reflexivity. Qed.

(** Far beyond any run of the program the counter stops moving. *)
Example advance_absorbed : advance (2 ^ 84) = 2 ^ 84.
Proof. vm_compute. reflexivity. Qed.

End RngFacts.

(** C6: for every seed, every value among the first [k] draws, for any
    [k], is a number greater than or equal to 0 and less than 1. *)
Theorem next_in_unit_interval :
  forall (s : Rng.seed_arg) (k : nat),
    Forall (fun v => Spec.in_unit v = true) (Rng.stream k (Rng.createRng s)).
Proof.
  intros s k. generalize (Rng.createRng s) as r.
  induction k as [|k IH]; intros r; cbn [Rng.stream]; constructor.
  - apply RngFacts.next_in_unit.
  - apply IH.
Qed.



(** C8, as stated: the state would stay in [0, 2^32) after any number
    of draws.  After one draw from the default seed it is 4301706707. *)
Lemma state_exceeds_32_bits :
  ~ (forall (s : Rng.seed_arg) (k : nat),
        0 <= Rng.t (Rng.skip k (Rng.createRng s)) < 4294967296).
Proof.
  intros H. specialize (H Rng.SeedUndefined 1%nat).
  vm_compute in H. destruct H as [_ H]. discriminate H.
Qed.

(** C8, amended: the state is a number holding a non-negative integer; it
    starts in [0, 2^32), and each of the first 4,000,000 draws adds
    0x6D2B79F5 to it without wrapping, so that every such draw changes it;
    the value drawn is computed from its residue modulo 2^32. *)
Theorem counter_not_wrapped :
  forall (s : Rng.seed_arg) (k : nat),
    Z.of_nat k <= 4000000 ->
    let r0 := Rng.createRng s in
    let r := Rng.skip k r0 in
    0 <= Rng.t r0 < 4294967296
    /\ Rng.t r = Rng.t r0 + Z.of_nat k * 0x6D2B79F5
    /\ Rng.t (snd (Rng.next r)) = Rng.t r + 0x6D2B79F5
    /\ fst (Rng.next r)
       = Num.div (Num.of_Z (Rng.mix ((Rng.t r + 0x6D2B79F5) mod 4294967296)))
                 (Num.of_Z 4294967296).
Proof.
  intros s k Hk r0 r.
  pose proof (RngFacts.createRng_range s) as H0. fold r0 in H0.
  assert (Hr : Rng.t r = Rng.t r0 + Z.of_nat k * 0x6D2B79F5).
  { subst r. apply RngFacts.skip_exact; [lia|].
    unfold Rng.increment, Rng.two53. lia. }
  assert (Hn : Rng.advance (Rng.t r) = Rng.t r + 0x6D2B79F5).
  { unfold Rng.advance, Rng.increment.
    apply RngFacts.round53_small. unfold Rng.two53. lia. }
  repeat split; try lia.
  - rewrite RngFacts.next_t. exact Hn.
  - rewrite RngFacts.next_value, Hn, RngFacts.mix_mod. reflexivity.
Qed.

(** The theorem at the default seed, after three draws. *)
Lemma counter_not_wrapped_witness :
  Z.of_nat 3 <= 4000000
  /\ let r0 := Rng.createRng Rng.SeedUndefined in
     let r := Rng.skip 3 r0 in
     0 <= Rng.t r0 < 4294967296
     /\ Rng.t r = Rng.t r0 + Z.of_nat 3 * 0x6D2B79F5
     /\ Rng.t (snd (Rng.next r)) = Rng.t r + 0x6D2B79F5
     /\ fst (Rng.next r)
        = Num.div (Num.of_Z (Rng.mix ((Rng.t r + 0x6D2B79F5) mod 4294967296)))
                  (Num.of_Z 4294967296).
Proof.
  split; [cbn; lia|].
  apply (counter_not_wrapped Rng.SeedUndefined 3). cbn. lia.
Defined.

(** C10: [pick] on an empty array returns [undefined] and advances the
    generator by exactly one draw. *)
Theorem pick_empty :
  forall (A : Type) (r : Rng.rng),
    Rng.pick (@nil A) r = (None, snd (Rng.next r))
    /\ Rng.t (snd (Rng.pick (@nil A) r)) = Rng.advance (Rng.t r).
Proof.
  intros A r. unfold Rng.pick.
  destruct (Rng.next r) as [v r'] eqn:E.
  rewrite RngFacts.array_get_nil. cbn [snd]. split; [reflexivity|].
  change r' with (snd (v, r')). rewrite <- E. apply RngFacts.next_t.
Qed.

(* ================================================================== *)
(** ** The world generator *)

Module WorldFacts.
Import Scene World.

(** *** Running the monad *)

Lemma run_bind {A B : Type} (m : M A) (k : A -> M B) (st : gen_state) :
  bind m k st = k (fst (m st)) (snd (m st)).
Proof. unfold bind. destruct (m st). reflexivity. Qed.

Lemma for_loop_succ {S : Type} (k : nat) (body : S -> M S) (s : S)
  (st : gen_state) :
  for_loop (Datatypes.S k) body s st
  = for_loop k body (fst (body s st)) (snd (body s st)).
Proof. cbn [for_loop]. apply run_bind. Qed.

(** *** Components of the state a computation leaves alone *)

Lemma stable_ret {A B : Type} (f : gen_state -> B) (a : A) : stable f (ret a).
Proof. intros st. reflexivity. Qed.

Lemma stable_bind {A B C : Type} (f : gen_state -> C) (m : M A)
  (k : A -> M B) :
  stable f m -> (forall a, stable f (k a)) -> stable f (bind m k).
Proof.
  intros Hm Hk st. rewrite run_bind, Hk, Hm. reflexivity.
Qed.

Lemma stable_for_loop {S C : Type} (f : gen_state -> C) (body : S -> M S) :
  (forall s, stable f (body s)) ->
  forall k s, stable f (for_loop k body s).
Proof.
  intros Hb k. induction k as [|k IH]; intros s st.
  - reflexivity.
  - rewrite for_loop_succ, IH, Hb. reflexivity.
Qed.

Ltac stable_step :=
  lazymatch goal with
  | |- stable _ (ret _) => apply stable_ret
  | |- stable _ (bind _ _) => apply stable_bind; [| intros ? ]
  | |- stable _ (for_loop _ _ _) => apply stable_for_loop; intros ?
  | |- stable _ (if ?b then _ else _) => destruct b
  | |- stable _ (match ?o with Some _ => _ | None => _ end) => destruct o
  | |- stable _ _ => solve [ intros ?; reflexivity ]
  end.

Ltac stable_auto := repeat stable_step.

(** *** The scene is only added to *)

Lemma with_scene_id (st : gen_state) : with_scene (g_scene st) st = st.
Proof. destruct st. reflexivity. Qed.

Lemma with_scene_twice (sc sc' : list Object3D) (st : gen_state) :
  with_scene sc (with_scene sc' st) = with_scene sc st.
Proof. reflexivity. Qed.

Lemma framed_ret {A : Type} (a : A) : framed (ret a).
Proof.
  intros st sc. unfold ret. cbn [fst snd with_scene g_scene].
  rewrite app_nil_r. reflexivity.
Qed.

Lemma framed_rand : framed rng_rand.
Proof.
  intros st sc. unfold rng_rand, with_scene. cbn [g_rng g_scene g_patches g_paths].
  destruct (Rng.next (g_rng st)) as [v r']. cbn [fst snd g_scene g_rng g_patches g_paths].
  rewrite app_nil_r. reflexivity.
Qed.

Lemma framed_scene_add (os : list Object3D) : framed (scene_add os).
Proof. intros st sc. reflexivity. Qed.

Lemma framed_patches_push (p : patch) : framed (patches_push p).
Proof.
  intros st sc. unfold patches_push, with_scene.
  cbn [fst snd g_rng g_scene g_patches g_paths].
  rewrite app_nil_r. reflexivity.
Qed.

Lemma framed_paths_push (p : path) : framed (paths_push p).
Proof.
  intros st sc. unfold paths_push, with_scene.
  cbn [fst snd g_rng g_scene g_patches g_paths].
  rewrite app_nil_r. reflexivity.
Qed.

Lemma framed_bind {A B : Type} (m : M A) (k : A -> M B) :
  framed m -> (forall a, framed (k a)) -> framed (bind m k).
Proof.
  intros Hm Hk st sc.
  rewrite !run_bind.
  rewrite (Hm st sc). cbn [fst snd].
  set (a := fst (m (with_scene [] st))).
  set (st1 := snd (m (with_scene [] st))).
  rewrite (Hk a st1 (sc ++ g_scene st1)).
  rewrite <- (with_scene_id st1) at 5 6 7.
  rewrite (Hk a st1 (g_scene st1)). cbn [fst snd].
  rewrite with_scene_twice. cbn [g_scene with_scene].
  rewrite app_assoc. reflexivity.
Qed.

Lemma framed_for_loop {S : Type} (body : S -> M S) :
  (forall s, framed (body s)) -> forall k s, framed (for_loop k body s).
Proof.
  intros Hb k. induction k as [|k IH]; intros s; cbn [for_loop].
  - apply framed_ret.
  - apply framed_bind; [apply Hb | intros s'; apply IH].
Qed.

Ltac framed_step :=
  lazymatch goal with
  | |- framed (ret _) => apply framed_ret
  | |- framed rng_rand => apply framed_rand
  | |- framed (scene_add _) => apply framed_scene_add
  | |- framed (patches_push _) => apply framed_patches_push
  | |- framed (paths_push _) => apply framed_paths_push
  | |- framed (bind _ _) => apply framed_bind; [| intros ? ]
  | |- framed (for_loop _ _ _) => apply framed_for_loop; intros ?
  | |- framed (if ?b then _ else _) => destruct b
  | |- framed (match ?o with Some _ => _ | None => _ end) => destruct o
  end.

Ltac framed_auto := repeat framed_step.

(** *** The inner functions of [createWorld] *)

Section Generator.

Variables Math_cos Math_sin : float -> float.
Variable Math_atan2 : float -> float -> float.

Local Abbreviation carve_step := (World.carve_step Math_cos Math_sin Math_atan2).
Local Abbreviation carvePath := (World.carvePath Math_cos Math_sin Math_atan2).
Local Abbreviation addLandmarks := (World.addLandmarks Math_cos Math_sin).
Local Abbreviation generate := (World.generate Math_cos Math_sin Math_atan2).
Local Abbreviation createWorld := (World.createWorld Math_cos Math_sin Math_atan2).

Lemma carve_step_poly (sl wd tc : float) (w : walk) (st : gen_state) :
  exists p, w_poly (fst (carve_step sl wd tc w st)) = w_poly w ++ [p].
Proof.
  unfold World.carve_step.
  repeat (rewrite run_bind; cbv beta).
  unfold ret. cbn [fst w_poly]. eexists. reflexivity.
Qed.

Lemma carve_loop_poly (sl wd tc : float) (k : nat) :
  forall (w : walk) (st : gen_state),
  exists tail,
    w_poly (fst (for_loop k (carve_step sl wd tc) w st)) = w_poly w ++ tail
    /\ List.length tail = k.
Proof.
  induction k as [|k IH]; intros w st.
  - exists []. cbn. rewrite app_nil_r. split; reflexivity.
  - rewrite for_loop_succ.
    destruct (carve_step_poly sl wd tc w st) as [p Hp].
    destruct (IH (fst (carve_step sl wd tc w st))
                 (snd (carve_step sl wd tc w st))) as (tail & Ht & Hl).
    exists (p :: tail). rewrite Ht, Hp, <- app_assoc. cbn. split; congruence.
Qed.

Lemma carve_step_stable_paths (sl wd tc : float) (w : walk) :
  stable g_paths (carve_step sl wd tc w).
Proof. unfold World.carve_step, addPathSegment. stable_auto. Qed.

Lemma carve_step_stable_patches (sl wd tc : float) (w : walk) :
  stable g_patches (carve_step sl wd tc w).
Proof. unfold World.carve_step, addPathSegment. stable_auto. Qed.

(** [carvePath] pushes one path: the start point followed by one point
    for each step. *)
Lemma carvePath_spec (a : carve_args) (st : gen_state) :
  exists p tail,
    g_paths (snd (carvePath a st)) = g_paths st ++ [p]
    /\ points p = v2 (startX a) (startZ a) :: tail
    /\ List.length tail = Z.to_nat (steps a).
Proof.
  unfold World.carvePath.
  repeat (rewrite run_bind; cbv beta).
  match goal with
  | |- context [for_loop ?k (carve_step ?sl ?wd ?tc) ?w ?s] =>
      destruct (carve_loop_poly sl wd tc k w s) as (tail & Ht & Hl);
      pose proof (stable_for_loop g_paths (carve_step sl wd tc)
                    (carve_step_stable_paths sl wd tc) k w s) as Hs;
      set (L := for_loop k (carve_step sl wd tc) w s) in *
  end.
  assert (Hr : g_paths (snd (rng_rand st)) = g_paths st)
    by (unfold rng_rand; destruct (Rng.next (g_rng st)); reflexivity).
  cbn [w_poly] in Ht.
  eexists. exists tail.
  unfold paths_push. cbn [snd g_paths].
  rewrite Hs, Hr.
  split; [reflexivity|].
  cbn [points]. split; [exact Ht | exact Hl].
Qed.

Lemma carvePath_stable_patches (a : carve_args) :
  stable g_patches (carvePath a).
Proof.
  unfold World.carvePath, World.carve_step, addPathSegment. stable_auto.
Qed.

Lemma patch_step_stable_paths (u : unit) : stable g_paths (patch_step u).
Proof. unfold patch_step, addPatch. stable_auto. Qed.

Lemma patch_step_pushes (u : unit) (st : gen_state) :
  exists p, g_patches (snd (patch_step u st)) = g_patches st ++ [p].
Proof.
  unfold patch_step, addPatch.
  repeat (rewrite run_bind; cbv beta).
  unfold patches_push. cbn [snd g_patches scene_add].
  eexists. reflexivity.
Qed.

Lemma patch_loop_length (k : nat) :
  forall st,
    List.length (g_patches (snd (for_loop k patch_step tt st)))
    = (List.length (g_patches st) + k)%nat.
Proof.
  induction k as [|k IH]; intros st.
  - cbn. lia.
  - rewrite for_loop_succ.
    destruct (fst (patch_step tt st)).
    rewrite IH.
    destruct (patch_step_pushes tt st) as [p ->].
    rewrite length_app. cbn. lia.
Qed.

Lemma tree_step_stable_paths (u : unit) : stable g_paths (tree_step u).
Proof. unfold tree_step, addTree. stable_auto. Qed.

Lemma tree_step_stable_patches (u : unit) : stable g_patches (tree_step u).
Proof. unfold tree_step, addTree. stable_auto. Qed.

Lemma addLandmarks_stable {B : Type} (f : gen_state -> B) :
  (forall os st, f (snd (scene_add os st)) = f st) ->
  stable f addLandmarks.
Proof.
  intros Hf.
  unfold World.addLandmarks, World.stone_ring, pond, watch_rock, dead_tree.
  repeat first [ apply stable_ret
               | apply stable_bind; [| intros ? ]
               | (intros ?; apply Hf) ].
Qed.

(** The landmark list is a constant of the code. *)
Lemma addLandmarks_value (st : gen_state) :
  fst (addLandmarks st)
  = [ {| id := "stone_ring"; name := "Stone Ring"; type := "stone";
         lm_x := n (-120); lm_z := n (-80) |};
      {| id := "pond"; name := "Pond"; type := "water";
         lm_x := n 110; lm_z := n 90 |};
      {| id := "watch_rock"; name := "Watch Rock"; type := "rock";
         lm_x := n (-140); lm_z := n 120 |};
      {| id := "dead_tree"; name := "Dead Tree"; type := "tree";
         lm_x := n 150; lm_z := n (-110) |} ].
Proof. reflexivity. Qed.

(** *** The shape of the generated world *)

Lemma generate_shape (ws b : float) (st : gen_state) :
  g_patches st = [] -> g_paths st = [] ->
  let w := fst (generate ws b st) in
  bounds w = b
  /\ List.length (patches w) = 70%nat
  /\ (exists p1 p2 p3 t1 t2 t3,
         paths w = [p1; p2; p3]
         /\ points p1 = v2 (n (-60)) (n 20) :: t1 /\ List.length t1 = 75%nat
         /\ points p2 = v2 (n 40) (n (-30)) :: t2 /\ List.length t2 = 75%nat
         /\ points p3 = v2 (n 0) (n 0) :: t3 /\ List.length t3 = 55%nat)
  /\ landmarks w = fst (addLandmarks st).
Proof.
  intros Hpatches Hpaths.
  unfold World.generate.
  repeat (rewrite run_bind; cbv beta).
  set (st1 := snd (scene_add _ st)).
  set (st2 := snd (for_loop 70 patch_step tt st1)).
  match goal with
  | |- context [World.carvePath _ _ _ ?a st2] =>
      set (a1 := a); set (st3 := snd (carvePath a1 st2))
  end.
  match goal with
  | |- context [World.carvePath _ _ _ ?a st3] =>
      set (a2 := a); set (st4 := snd (carvePath a2 st3))
  end.
  match goal with
  | |- context [World.carvePath _ _ _ ?a st4] =>
      set (a3 := a); set (st5 := snd (carvePath a3 st4))
  end.
  set (st6 := snd (for_loop treeCount tree_step tt st5)).
  cbv zeta. cbn [fst bounds patches paths landmarks].
  (* paths *)
  assert (H1 : g_paths st2 = []).
  { subst st2. rewrite (stable_for_loop g_paths patch_step
                          patch_step_stable_paths). exact Hpaths. }
  destruct (carvePath_spec a1 st2) as (p1 & t1 & E1 & P1 & L1).
  destruct (carvePath_spec a2 st3) as (p2 & t2 & E2 & P2 & L2).
  destruct (carvePath_spec a3 st4) as (p3 & t3 & E3 & P3 & L3).
  fold st3 in E1. fold st4 in E2. fold st5 in E3.
  assert (H6 : g_paths st6 = g_paths st5).
  { subst st6. apply (stable_for_loop g_paths tree_step
                        tree_step_stable_paths). }
  (* patches *)
  assert (G2 : List.length (g_patches st2) = 70%nat).
  { subst st2. rewrite patch_loop_length. subst st1.
    cbn [snd scene_add g_patches]. rewrite Hpatches. reflexivity. }
  assert (G3 : g_patches st3 = g_patches st2)
    by apply carvePath_stable_patches.
  assert (G4 : g_patches st4 = g_patches st3)
    by apply carvePath_stable_patches.
  assert (G5 : g_patches st5 = g_patches st4)
    by apply carvePath_stable_patches.
  assert (G6 : g_patches st6 = g_patches st5).
  { subst st6. apply (stable_for_loop g_patches tree_step
                        tree_step_stable_patches). }
  rewrite (addLandmarks_stable g_patches) by reflexivity.
  rewrite (addLandmarks_stable g_paths) by reflexivity.
  repeat split.
  - congruence.
  - exists p1, p2, p3, t1, t2, t3.
    rewrite H6, E3, E2, E1, H1.
    repeat split; assumption.
Qed.

(** [generate] only adds to the scene, and what it adds and returns does
    not depend on what the scene held. *)
Lemma generate_framed (ws b : float) : framed (generate ws b).
Proof.
  unfold World.generate, World.carvePath, World.carve_step, patch_step,
    tree_step, addPatch, addTree, addPathSegment, World.addLandmarks,
    World.stone_ring, pond, watch_rock, dead_tree.
  framed_auto.
  intros st sc. cbn [fst snd g_scene g_patches g_paths with_scene].
  rewrite app_nil_r. reflexivity.
Qed.

Lemma createWorld_shape (a : world_args) :
  let w := fst (createWorld a) in
  bounds w = match arg_bounds a with Some b => b | None => n 240 end
  /\ List.length (patches w) = 70%nat
  /\ (exists p1 p2 p3 t1 t2 t3,
         paths w = [p1; p2; p3]
         /\ points p1 = v2 (n (-60)) (n 20) :: t1 /\ List.length t1 = 75%nat
         /\ points p2 = v2 (n 40) (n (-30)) :: t2 /\ List.length t2 = 75%nat
         /\ points p3 = v2 (n 0) (n 0) :: t3 /\ List.length t3 = 55%nat)
  /\ landmarks w
     = [ {| id := "stone_ring"; name := "Stone Ring"; type := "stone";
            lm_x := n (-120); lm_z := n (-80) |};
         {| id := "pond"; name := "Pond"; type := "water";
            lm_x := n 110; lm_z := n 90 |};
         {| id := "watch_rock"; name := "Watch Rock"; type := "rock";
            lm_x := n (-140); lm_z := n 120 |};
         {| id := "dead_tree"; name := "Dead Tree"; type := "tree";
            lm_x := n 150; lm_z := n (-110) |} ].
Proof.
  unfold World.createWorld.
  set (ws := match worldSize a with Some w => w | None => n 500 end).
  set (b := match arg_bounds a with Some b => b | None => n 240 end).
  set (st := {| g_rng := rng a; g_scene := scene a;
                g_patches := []; g_paths := [] |}).
  pose proof (generate_shape ws b st eq_refl eq_refl) as H.
  destruct (generate ws b st) as [w st'].
  cbn [fst] in *. cbv zeta in H.
  rewrite addLandmarks_value in H. exact H.
Qed.

End Generator.

(** *** One candidate of the tree loop *)

Lemma rng_rand_run (st : gen_state) :
  rng_rand st
  = (Num.div (Num.of_Z (Rng.mix (Rng.advance (Rng.t (g_rng st)))))
             (Num.of_Z 4294967296),
     {| g_rng := {| Rng.seed := Rng.seed (g_rng st);
                    Rng.t := Rng.advance (Rng.t (g_rng st)) |};
        g_scene := g_scene st;
        g_patches := g_patches st;
        g_paths := g_paths st |}).
Proof. reflexivity. Qed.

Lemma ltb_leb (a b : float) : Num.ltb a b = true -> Num.leb a b = true.
Proof.
  unfold Num.ltb, Num.leb, SFltb, SFleb.
  destruct (SFcompare a b) as [[| |]|]; congruence.
Qed.

Lemma in_corridor_inclusive (x z : float) (c : corridor) :
  in_corridor x z c = true -> Spec.inside_inclusive x z c = true.
Proof. unfold in_corridor, Spec.inside_inclusive. apply ltb_leb. Qed.

Lemma nearCorridor_inclusive (x z : float) :
  nearCorridor x z = true -> Spec.in_some_zone x z = true.
Proof.
  unfold nearCorridor, Spec.in_some_zone.
  rewrite !existsb_exists.
  intros (c & Hc & H). exists c. split; [assumption|].
  apply in_corridor_inclusive. assumption.
Qed.

(** The default world, evaluated: the scene receives 2187 objects (the
    ground, 70 patches, 205 path segments, 3 objects for each of 635
    trees, 6 objects for the landmarks) and the generator is left after
    2402 draws. *)
Example default_world_census :
  let r := createWorld Sample.cos Sample.sin Sample.atan2 (default_args []) in
  (List.length (fst (snd r)), Rng.t (snd (snd r)))
  = (2187%nat, 2470140894 + 2402 * 0x6D2B79F5).
Proof. vm_compute. reflexivity. Qed.

End WorldFacts.

Module ScatterFacts.
Import World.

(** With the generator of [createRng], [candidate] is the iteration of
    the tree loop in [createWorld]. *)
Lemma tree_step_candidate (st : gen_state) :
  let out := Scatter.candidate Rng.rng Rng.next (g_rng st) in
  snd (tree_step tt st)
  = {| g_rng := snd out;
       g_scene := g_scene st
                  ++ match fst out with
                     | Some (x, z, s) => tree_objects trunkMat leafMat x z s
                     | None => []
                     end;
       g_patches := g_patches st;
       g_paths := g_paths st |}.
Proof.
  destruct st as [[sd t0] sc pa pt]. cbv zeta.
  cbv [tree_step Scatter.candidate bind rng_rand Rng.next Rng.rand ret
       addTree scene_add fst snd g_rng g_scene g_patches g_paths
       Rng.seed Rng.t].
  match goal with
  | |- context [if ?c then _ else _] => destruct c
  end.
  - match goal with
    | |- context [if ?c then _ else _] => destruct c
    end.
    + rewrite app_nil_r. reflexivity.
    + reflexivity.
  - reflexivity.
Qed.

End ScatterFacts.



(** C1: two runs of [createWorld] on generators made from the same seed,
    with the same parameters, return the same world (bounds, patches,
    paths, landmarks), leave the generator in the same state and add the
    same objects (ground, patches, path segments, trees, landmarks) to the
    scene, whatever the two scenes held before. *)
Theorem createWorld_deterministic :
  forall (Math_cos Math_sin : float -> float)
         (Math_atan2 : float -> float -> float)
         (s : Rng.seed_arg) (ws b : option float)
         (sc1 sc2 : list Scene.Object3D),
    let run sc :=
      World.createWorld Math_cos Math_sin Math_atan2
        {| World.scene := sc; World.rng := Rng.createRng s;
           World.worldSize := ws; World.arg_bounds := b |} in
    fst (run sc1) = fst (run sc2)
    /\ snd (snd (run sc1)) = snd (snd (run sc2))
    /\ exists objs, fst (snd (run sc1)) = sc1 ++ objs
                    /\ fst (snd (run sc2)) = sc2 ++ objs.
Proof.
  intros Math_cos Math_sin Math_atan2 s ws b sc1 sc2 run.
  subst run. unfold World.createWorld.
  cbn [World.scene World.rng World.worldSize World.arg_bounds].
  set (w := match ws with Some w => w | None => World.n 500 end).
  set (bd := match b with Some b => b | None => World.n 240 end).
  set (st := {| World.g_rng := Rng.createRng s; World.g_scene := [];
                World.g_patches := []; World.g_paths := [] |}).
  change {| World.g_rng := Rng.createRng s; World.g_scene := sc1;
            World.g_patches := []; World.g_paths := [] |}
    with (World.with_scene sc1 st).
  change {| World.g_rng := Rng.createRng s; World.g_scene := sc2;
            World.g_patches := []; World.g_paths := [] |}
    with (World.with_scene sc2 st).
  rewrite (WorldFacts.generate_framed Math_cos Math_sin Math_atan2
             w bd st sc1),
          (WorldFacts.generate_framed Math_cos Math_sin Math_atan2
             w bd st sc2).
  destruct (World.generate Math_cos Math_sin Math_atan2 w bd
              (World.with_scene [] st)) as [w0 st0].
  cbn [fst snd World.with_scene World.g_scene World.g_rng].
  split; [reflexivity|]. split; [reflexivity|].
  exists (World.g_scene st0). split; reflexivity.
Qed.

(** C2, as stated: every one of the three paths would have 76 points.
    The third path is carved with 55 steps and has 56 points. *)
Lemma third_path_has_56_points :
  let w := fst (World.createWorld Sample.cos Sample.sin Sample.atan2
                  (World.default_args [])) in
  ~ (List.length (World.paths w) = 3%nat
     /\ Forall (fun p => List.length (World.points p) = 76%nat)
               (World.paths w)).
Proof.
  intros w.
  destruct (WorldFacts.createWorld_shape Sample.cos Sample.sin Sample.atan2
              (World.default_args []))
    as (_ & _ & (p1 & p2 & p3 & t1 & t2 & t3 & Hp & _ & _ & _ & _
                 & P3 & L3) & _).
  fold w in Hp. clearbody w. rewrite Hp. intros [_ H].
  apply Forall_inv_tail, Forall_inv_tail, Forall_inv in H.
  rewrite P3 in H. cbn [List.length] in H. rewrite L3 in H.
  discriminate H.
Qed.

(** C2, amended: with the seed "default" and every parameter at its
    default, the world has exactly 3 paths; the first two have 76 points
    (75 steps) and the third has 56 points (55 steps); the landmarks
    include the one with id "pond" at x = 110, z = 90. *)
Theorem default_world_paths :
  forall (Math_cos Math_sin : float -> float)
         (Math_atan2 : float -> float -> float)
         (sc : list Scene.Object3D),
    let w := fst (World.createWorld Math_cos Math_sin Math_atan2
                    (World.default_args sc)) in
    map (fun p => List.length (World.points p)) (World.paths w)
    = [76; 76; 56]%nat
    /\ In {| World.id := "pond"; World.name := "Pond";
             World.type := "water";
             World.lm_x := Num.of_Z 110; World.lm_z := Num.of_Z 90 |}
          (World.landmarks w).
Proof.
  intros Math_cos Math_sin Math_atan2 sc w.
  destruct (WorldFacts.createWorld_shape Math_cos Math_sin Math_atan2
              (World.default_args sc))
    as (_ & _ & (p1 & p2 & p3 & t1 & t2 & t3 & Hp & P1 & L1 & P2 & L2
                 & P3 & L3) & Hl).
  fold w in Hp, Hl. rewrite Hp, Hl. split.
  - cbn [map]. rewrite P1, P2, P3. cbn [List.length].
    rewrite L1, L2, L3. reflexivity.
  - right. left. reflexivity.
Qed.

(** C3, as stated: an invalid configuration would make construction fail
    before any draw.  With [worldSize = -500] and [bounds = NaN]
    [createWorld] returns a world with 70 patches and 3 paths whose
    [bounds] is NaN, and the generator has been advanced. *)
Lemma invalid_configuration_accepted :
  let a := {| World.scene := [];
              World.rng := Rng.createRng Rng.SeedUndefined;
              World.worldSize := Some (Num.of_Z (-500));
              World.arg_bounds := Some Num.NaN |} in
  let r := World.createWorld Sample.cos Sample.sin Sample.atan2 a in
  Spec.invalid_configuration (World.worldSize a) (World.arg_bounds a) = true
  /\ World.bounds (fst r) = Num.NaN
  /\ List.length (World.patches (fst r)) = 70%nat
  /\ List.length (World.paths (fst r)) = 3%nat
  /\ Rng.t (snd (snd r)) <> Rng.t (World.rng a).
Proof.
  intros a r.
  destruct (WorldFacts.createWorld_shape Sample.cos Sample.sin Sample.atan2 a)
    as (Hb & Hn & (p1 & p2 & p3 & t1 & t2 & t3 & Hp & _) & _).
  fold r in Hb, Hn, Hp.
  assert (Hr : (Rng.t (snd (snd r)) =? Rng.t (World.rng a)) = false)
    by (vm_compute; reflexivity).
  clearbody r.
  split; [vm_compute; reflexivity|].
  rewrite Hb, Hn, Hp.
  repeat split. apply Z.eqb_neq. exact Hr.
Qed.

(** C3, amended: [createWorld] does not validate its parameters.  For
    every [worldSize] and [bounds], valid or not, it returns a complete
    world: [bounds] is the value given (240 when left out), there are 70
    patches, 3 paths and 4 landmarks; these counts are constants of the
    code. *)
Theorem createWorld_total :
  forall (Math_cos Math_sin : float -> float)
         (Math_atan2 : float -> float -> float)
         (a : World.world_args),
    let w := fst (World.createWorld Math_cos Math_sin Math_atan2 a) in
    World.bounds w = match World.arg_bounds a with
                     | Some b => b
                     | None => Num.of_Z 240
                     end
    /\ List.length (World.patches w) = 70%nat
    /\ List.length (World.paths w) = 3%nat
    /\ List.length (World.landmarks w) = 4%nat.
Proof.
  intros Math_cos Math_sin Math_atan2 a w.
  destruct (WorldFacts.createWorld_shape Math_cos Math_sin Math_atan2 a)
    as (Hb & Hn & (p1 & p2 & p3 & t1 & t2 & t3 & Hp & _) & Hl).
  fold w in Hb, Hn, Hp, Hl.
  rewrite Hb, Hn, Hp, Hl. repeat split.
Qed.

(** C4: for [steps >= 0], [carvePath] pushes one path whose points are
    the start position followed by one point for each step: [steps + 1]
    points, the first of which is the start; with [steps = 0] the start
    alone. *)
Theorem carvePath_polyline :
  forall (Math_cos Math_sin : float -> float)
         (Math_atan2 : float -> float -> float)
         (a : World.carve_args) (st : World.gen_state),
    0 <= World.steps a ->
    exists p tail,
      World.g_paths (snd (World.carvePath Math_cos Math_sin Math_atan2 a st))
      = World.g_paths st ++ [p]
      /\ World.points p
         = World.v2 (World.startX a) (World.startZ a) :: tail
      /\ Z.of_nat (List.length (World.points p)) = World.steps a + 1
      /\ (if World.steps a =? 0 then tail = [] else tail <> []).
Proof.
  intros Math_cos Math_sin Math_atan2 a st Hs.
  destruct (WorldFacts.carvePath_spec Math_cos Math_sin Math_atan2 a st)
    as (p & tail & Hp & Hpts & Hlen).
  exists p, tail. repeat split; try assumption.
  - rewrite Hpts. cbn [List.length]. rewrite Hlen. lia.
  - destruct (World.steps a =? 0) eqn:E.
    + apply Z.eqb_eq in E. rewrite E in Hlen.
      destruct tail; [reflexivity | discriminate Hlen].
    + apply Z.eqb_neq in E. intros ->. cbn in Hlen. lia.
Qed.

(** The theorem at a path of no step, starting at (3, 4). *)
Lemma carvePath_polyline_witness :
  let a := {| World.startX := Num.of_Z 3; World.startZ := Num.of_Z 4;
              World.steps := 0; World.stepLen := Num.of_Z 7;
              World.arg_width := None; World.arg_turnChance := None |} in
  let st := {| World.g_rng := Rng.createRng Rng.SeedUndefined;
               World.g_scene := []; World.g_patches := [];
               World.g_paths := [] |} in
  0 <= World.steps a
  /\ exists p tail,
      World.g_paths (snd (World.carvePath Sample.cos Sample.sin
                            Sample.atan2 a st))
      = World.g_paths st ++ [p]
      /\ World.points p
         = World.v2 (World.startX a) (World.startZ a) :: tail
      /\ Z.of_nat (List.length (World.points p)) = World.steps a + 1
      /\ (if World.steps a =? 0 then tail = [] else tail <> []).
Proof.
  intros a st. split; [cbn; lia|].
  apply (carvePath_polyline Sample.cos Sample.sin Sample.atan2 a st).
  cbn. lia.
Defined.

(** C9: in every world the landmark ids are pairwise different; the
    landmark list is the same for all arguments of [createWorld], and
    [addLandmarks] leaves the generator as it found it. *)
Theorem landmarks_fixed :
  forall (Math_cos Math_sin : float -> float)
         (Math_atan2 : float -> float -> float)
         (a a' : World.world_args) (st : World.gen_state),
    let w := fst (World.createWorld Math_cos Math_sin Math_atan2 a) in
    let w' := fst (World.createWorld Math_cos Math_sin Math_atan2 a') in
    NoDup (map World.id (World.landmarks w))
    /\ World.landmarks w = World.landmarks w'
    /\ World.g_rng (snd (World.addLandmarks Math_cos Math_sin st))
       = World.g_rng st.
Proof.
  intros Math_cos Math_sin Math_atan2 a a' st w w'.
  destruct (WorldFacts.createWorld_shape Math_cos Math_sin Math_atan2 a)
    as (_ & _ & _ & Hl).
  destruct (WorldFacts.createWorld_shape Math_cos Math_sin Math_atan2 a')
    as (_ & _ & _ & Hl').
  fold w in Hl. fold w' in Hl'.
  rewrite Hl, Hl'. split; [|split].
  - cbn [map World.id].
    repeat (constructor; [cbn; intuition discriminate|]). constructor.
  - reflexivity.
  - apply (WorldFacts.addLandmarks_stable Math_cos Math_sin World.g_rng).
    reflexivity.
Qed.

(* ================================================================== *)
(** ** Numbers: the operations are exact on small dyadic numbers *)

Module DyadicFacts.
Import Dyadic NumFacts.

Lemma pos_iter_xO_Z (p k : positive) :
  Zpos (Pos.iter xO p k) = Zpos p * 2 ^ Zpos k.
Proof.
  induction k as [|k IH] using Pos.peano_ind.
  - cbn [Pos.iter]. lia.
  - rewrite Pos.iter_succ, Pos2Z.inj_succ, Z.pow_succ_r by lia.
    rewrite Pos2Z.inj_xO, IH. lia.
Qed.

Lemma iter_shr_1 (k : positive) :
  forall p,
    iter_pos shr_1 k
      {| shr_m := Zpos (Pos.iter xO p k); shr_r := false; shr_s := false |}
    = {| shr_m := Zpos p; shr_r := false; shr_s := false |}.
Proof.
  induction k as [k IH | k IH |]; intros p; cbn [iter_pos Pos.iter].
  - cbn [shr_1 orb]. rewrite IH, IH. reflexivity.
  - rewrite IH, IH. reflexivity.
  - reflexivity.
Qed.

Lemma digits_unique (p : positive) (a : Z) :
  2 ^ (a - 1) <= Zpos p < 2 ^ a -> Zpos (digits2_pos p) = a.
Proof.
  intros [Hlo Hhi].
  pose proof (digits2_pos_range p) as [Dlo Dhi].
  assert (0 < a).
  { destruct (Z_lt_le_dec 0 a); [assumption|].
    assert (2 ^ a <= 2 ^ 0) by (destruct (Z_lt_le_dec a 0);
      [rewrite Z.pow_neg_r by lia; cbn; lia | apply Z.pow_le_mono_r; lia]).
    cbn in *. lia. }
  destruct (Z.lt_trichotomy (Zpos (digits2_pos p)) a) as [Hlt | [Heq | Hgt]];
    [| assumption |].
  - assert (2 ^ Zpos (digits2_pos p) <= 2 ^ (a - 1))
      by (apply Z.pow_le_mono_r; lia). lia.
  - assert (2 ^ a <= 2 ^ (Zpos (digits2_pos p) - 1))
      by (apply Z.pow_le_mono_r; lia). lia.
Qed.

Lemma digits_shift (p : positive) (k : Z) :
  0 <= k ->
  Zpos (digits2_pos (Z.to_pos (Zpos p * 2 ^ k))) = Zpos (digits2_pos p) + k.
Proof.
  intros Hk. apply digits_unique.
  pose proof (digits2_pos_range p) as [Dlo Dhi].
  assert (0 < 2 ^ k) by (apply Z.pow_pos_nonneg; lia).
  rewrite Z2Pos.id by nia.
  replace (Zpos (digits2_pos p) + k - 1) with (Zpos (digits2_pos p) - 1 + k)
    by lia.
  rewrite !Z.pow_add_r by lia. nia.
Qed.

(** Dropping [j] zero bits below a mantissa of 53 bits is exact. *)
Lemma binary_round_aux_exact (s : bool) (P m : positive) (j e : Z) :
  Zpos (digits2_pos m) = 53 -> 0 <= j -> Zpos P = Zpos m * 2 ^ j ->
  -1074 <= e + j <= 971 ->
  binary_round_aux Num.prec Num.emax s (Zpos P) e loc_Exact
  = S754_finite s m (e + j).
Proof.
  intros Hd Hj HP He.
  destruct j as [|k|k]; [| | lia].
  - assert (P = m) by lia. subst P. rewrite Z.add_0_r.
    apply binary_round_aux_canonical; [assumption | lia].
  - assert (P = Pos.iter xO m k)
      by (apply Pos2Z.inj; rewrite pos_iter_xO_Z; exact HP).
    subst P.
    assert (H1 : fexp Num.prec Num.emax
                   (Zdigits2 (Zpos (Pos.iter xO m k)) + e) - e = Zpos k).
    { unfold fexp, emin, Num.prec, Num.emax. cbn [Zdigits2].
      rewrite digits2_pos_iter_xO. lia. }
    assert (H2 : fexp Num.prec Num.emax (Zdigits2 (Zpos m) + (e + Zpos k))
                 - (e + Zpos k) = 0).
    { unfold fexp, emin, Num.prec, Num.emax. cbn [Zdigits2]. lia. }
    unfold binary_round_aux, shr_fexp.
    rewrite H1. cbn [shr shr_record_of_loc].
    rewrite iter_shr_1.
    cbn [shr_m loc_of_shr_record round_nearest_even].
    rewrite H2. cbn [shr shr_record_of_loc shr_m].
    replace (e + Zpos k <=? Num.emax - Num.prec) with true; [reflexivity|].
    symmetry. apply Z.leb_le. unfold Num.emax, Num.prec. lia.
Qed.

Lemma binary_round_exact (s : bool) (p : positive) (j f : Z) :
  Zpos (digits2_pos p) <= 53 -> 0 <= j -> -1000 <= f <= 900 ->
  binary_round Num.prec Num.emax s (Z.to_pos (Zpos p * 2 ^ j)) (f - j)
  = S754_finite s (Z.to_pos (Zpos p * 2 ^ (53 - Zpos (digits2_pos p))))
                (f - (53 - Zpos (digits2_pos p))).
Proof.
  intros Hd Hj Hf.
  set (d := Zpos (digits2_pos p)) in *.
  assert (Hd1 : 1 <= d) by (subst d; lia).
  set (P := Z.to_pos (Zpos p * 2 ^ j)).
  set (m := Z.to_pos (Zpos p * 2 ^ (53 - d))).
  assert (HP : Zpos P = Zpos p * 2 ^ j).
  { subst P. assert (0 < 2 ^ j) by (apply Z.pow_pos_nonneg; lia).
    rewrite Z2Pos.id by nia. reflexivity. }
  assert (Hm : Zpos m = Zpos p * 2 ^ (53 - d)).
  { subst m. assert (0 < 2 ^ (53 - d)) by (apply Z.pow_pos_nonneg; lia).
    rewrite Z2Pos.id by nia. reflexivity. }
  assert (HdP : Zpos (digits2_pos P) = d + j)
    by (subst P d; apply digits_shift; assumption).
  assert (Hdm : Zpos (digits2_pos m) = 53)
    by (subst m d; rewrite digits_shift; lia).
  unfold binary_round, shl_align.
  assert (Hfe : fexp Num.prec Num.emax (Zpos (digits2_pos P) + (f - j))
                = d + f - 53).
  { unfold fexp, emin, Num.prec, Num.emax. lia. }
  rewrite Hfe.
  destruct (d + f - 53 - (f - j)) as [|t|t] eqn:Ht.
  - replace (f - (53 - d)) with (f - j + (j - (53 - d))) by lia.
    apply (binary_round_aux_exact s P m (j - (53 - d))); try lia.
    rewrite HP, Hm, <- Z.mul_assoc, <- Z.pow_add_r by lia.
    f_equal. f_equal. lia.
  - replace (f - (53 - d)) with (f - j + (j - (53 - d))) by lia.
    apply (binary_round_aux_exact s P m (j - (53 - d))); try lia.
    rewrite HP, Hm, <- Z.mul_assoc, <- Z.pow_add_r by lia.
    f_equal. f_equal. lia.
  - assert (Pos.iter xO P t = m).
    { apply Pos2Z.inj. rewrite pos_iter_xO_Z, HP, Hm.
      rewrite <- Z.mul_assoc, <- Z.pow_add_r by lia.
      f_equal. f_equal. lia. }
    rewrite H.
    replace (f - (53 - d)) with (d + f - 53) by lia.
    apply binary_round_aux_canonical; [assumption | lia].
Qed.

(** [binary_normalize] is exact on [N * 2^j] when [N] has at most 53
    bits. *)
Lemma normalize_exact (N j f : Z) :
  Z.abs N < 2 ^ 53 -> 0 <= j -> -1000 <= f <= 900 ->
  binary_normalize Num.prec Num.emax (N * 2 ^ j) (f - j) false = canon N f.
Proof.
  intros HN Hj Hf.
  assert (H2 : 0 < 2 ^ j) by (apply Z.pow_pos_nonneg; lia).
  destruct N as [|p|p].
  - reflexivity.
  - assert (Hd : Zpos (digits2_pos p) <= 53)
      by (apply digits2_pos_le; lia).
    unfold binary_normalize, canon.
    destruct (Zpos p * 2 ^ j) as [|P|P] eqn:E; try lia.
    replace P with (Z.to_pos (Zpos p * 2 ^ j)) by (rewrite E; reflexivity).
    apply binary_round_exact; assumption.
  - assert (Hd : Zpos (digits2_pos p) <= 53)
      by (apply digits2_pos_le; lia).
    unfold binary_normalize, canon.
    destruct (Zneg p * 2 ^ j) as [|P|P] eqn:E; try lia.
    replace P with (Z.to_pos (Zpos p * 2 ^ j)) by (apply Pos2Z.inj; rewrite Z2Pos.id; lia).
    apply binary_round_exact; assumption.
Qed.


(** The shape of [canon N f] for [N <> 0]. *)
Lemma canon_finite (N f : Z) :
  N <> 0 -> Z.abs N < 2 ^ 53 ->
  exists m e,
    canon N f = S754_finite (N <? 0) m e
    /\ Zpos (digits2_pos m) = 53
    /\ f - 52 <= e <= f
    /\ cond_Zopp (N <? 0) (Zpos m) = N * 2 ^ (f - e).
Proof.
  intros HN Hb.
  destruct N as [|p|p]; [lia | |];
    (assert (Hd : Zpos (digits2_pos p) <= 53) by (apply digits2_pos_le; lia);
     set (k := 53 - Zpos (digits2_pos p));
     assert (Hk : 0 <= k <= 52) by (subst k; lia);
     assert (H2 : 0 < 2 ^ k) by (apply Z.pow_pos_nonneg; lia);
     exists (Z.to_pos (Zpos p * 2 ^ k)), (f - k);
     split; [reflexivity|];
     split; [rewrite digits_shift by lia; subst k; lia|];
     split; [lia|];
     replace (f - (f - k)) with k by lia;
     cbn [cond_Zopp]; rewrite Z2Pos.id by nia).
  - change (Zpos p <? 0) with false. cbn [cond_Zopp]. reflexivity.
  - change (Zneg p <? 0) with true. cbn [cond_Zopp]. lia.
Qed.

Lemma of_Z_canon (z : Z) : Z.abs z < 2 ^ 53 -> Num.of_Z z = canon z 0.
Proof.
  intros Hz. unfold Num.of_Z.
  rewrite <- (normalize_exact z 0 0) by lia.
  rewrite Z.pow_0_r, Z.mul_1_r. reflexivity.
Qed.

(** [canon] depends on the value only. *)
Lemma canon_shift (N j f : Z) :
  Z.abs (N * 2 ^ j) < 2 ^ 53 -> 0 <= j -> -1000 <= f <= 900 ->
  -1000 <= f - j ->
  canon (N * 2 ^ j) (f - j) = canon N f.
Proof.
  intros Hb Hj Hf Hfj.
  assert (H2 : 0 < 2 ^ j) by (apply Z.pow_pos_nonneg; lia).
  assert (HN : Z.abs N < 2 ^ 53) by nia.
  rewrite <- (normalize_exact N j f) by assumption.
  rewrite <- (normalize_exact (N * 2 ^ j) 0 (f - j)) by lia.
  rewrite Z.pow_0_r, Z.mul_1_r, Z.sub_0_r. reflexivity.
Qed.

Lemma shl_align_fst (m : positive) (e ez : Z) :
  ez <= e -> Zpos (fst (shl_align m e ez)) = Zpos m * 2 ^ (e - ez).
Proof.
  intros H. unfold shl_align.
  destruct (ez - e) as [|t|t] eqn:E; cbn [fst]; try lia.
  - replace (e - ez) with 0 by lia. lia.
  - rewrite pos_iter_xO_Z. f_equal. f_equal. lia.
Qed.

Lemma cond_Zopp_mul (s : bool) (a b : Z) :
  cond_Zopp s (a * b) = cond_Zopp s a * b.
Proof. destruct s; cbn [cond_Zopp]; lia. Qed.

Lemma add_finite (s1 s2 : bool) (m1 m2 : positive) (e1 e2 : Z) :
  Num.add (S754_finite s1 m1 e1) (S754_finite s2 m2 e2)
  = binary_normalize Num.prec Num.emax
      (cond_Zopp s1 (Zpos m1) * 2 ^ (e1 - Z.min e1 e2)
       + cond_Zopp s2 (Zpos m2) * 2 ^ (e2 - Z.min e1 e2))
      (Z.min e1 e2) false.
Proof.
  unfold Num.add, SFadd.
  rewrite !shl_align_fst, !cond_Zopp_mul by lia. reflexivity.
Qed.

Lemma sub_finite (s1 s2 : bool) (m1 m2 : positive) (e1 e2 : Z) :
  Num.sub (S754_finite s1 m1 e1) (S754_finite s2 m2 e2)
  = binary_normalize Num.prec Num.emax
      (cond_Zopp s1 (Zpos m1) * 2 ^ (e1 - Z.min e1 e2)
       - cond_Zopp s2 (Zpos m2) * 2 ^ (e2 - Z.min e1 e2))
      (Z.min e1 e2) false.
Proof.
  unfold Num.sub, SFsub.
  rewrite !shl_align_fst, !cond_Zopp_mul by lia. reflexivity.
Qed.

Lemma pow2_split (a b : Z) : 0 <= a -> 0 <= b -> 2 ^ (a + b) = 2 ^ a * 2 ^ b.
Proof. intros. apply Z.pow_add_r; assumption. Qed.

(** Sums and differences that fit in 53 bits are exact. *)
Lemma add_exact (N1 N2 f : Z) :
  Z.abs N1 < 2 ^ 53 -> Z.abs N2 < 2 ^ 53 -> Z.abs (N1 + N2) < 2 ^ 53 ->
  -900 <= f <= 900 ->
  Num.add (canon N1 f) (canon N2 f) = canon (N1 + N2) f.
Proof.
  intros H1 H2 H12 Hf.
  destruct (Z.eq_dec N1 0) as [->|Z1].
  { destruct (Z.eq_dec N2 0) as [->|Z2]; [reflexivity|].
    change (0 + N2) with N2.
    destruct (canon_finite N2 f Z2 H2) as (m & e & -> & _).
    reflexivity. }
  destruct (Z.eq_dec N2 0) as [->|Z2].
  { rewrite Z.add_0_r.
    destruct (canon_finite N1 f Z1 H1) as (m & e & -> & _).
    reflexivity. }
  destruct (canon_finite N1 f Z1 H1) as (m1 & e1 & -> & _ & He1 & V1).
  destruct (canon_finite N2 f Z2 H2) as (m2 & e2 & -> & _ & He2 & V2).
  rewrite add_finite, V1, V2.
  set (ez := Z.min e1 e2).
  rewrite <- !Z.mul_assoc, <- !pow2_split by lia.
  replace (f - e1 + (e1 - ez)) with (f - ez) by lia.
  replace (f - e2 + (e2 - ez)) with (f - ez) by lia.
  rewrite <- Z.mul_add_distr_r.
  replace ez with (f - (f - ez)) at 2 by lia.
  apply normalize_exact; lia.
Qed.

Lemma sub_exact (N1 N2 f : Z) :
  Z.abs N1 < 2 ^ 53 -> Z.abs N2 < 2 ^ 53 -> Z.abs (N1 - N2) < 2 ^ 53 ->
  -900 <= f <= 900 ->
  Num.sub (canon N1 f) (canon N2 f) = canon (N1 - N2) f.
Proof.
  intros H1 H2 H12 Hf.
  destruct (Z.eq_dec N2 0) as [->|Z2].
  { rewrite Z.sub_0_r.
    destruct (Z.eq_dec N1 0) as [->|Z1]; [reflexivity|].
    destruct (canon_finite N1 f Z1 H1) as (m & e & -> & _).
    reflexivity. }
  destruct (Z.eq_dec N1 0) as [->|Z1].
  { destruct N2 as [|p|p]; [lia | reflexivity | reflexivity]. }
  destruct (canon_finite N1 f Z1 H1) as (m1 & e1 & -> & _ & He1 & V1).
  destruct (canon_finite N2 f Z2 H2) as (m2 & e2 & -> & _ & He2 & V2).
  rewrite sub_finite, V1, V2.
  set (ez := Z.min e1 e2).
  rewrite <- !Z.mul_assoc, <- !pow2_split by lia.
  replace (f - e1 + (e1 - ez)) with (f - ez) by lia.
  replace (f - e2 + (e2 - ez)) with (f - ez) by lia.
  rewrite <- Z.mul_sub_distr_r.
  replace ez with (f - (f - ez)) at 2 by lia.
  apply normalize_exact; lia.
Qed.


Lemma pow2_pos (a : Z) : 0 <= a -> 0 < 2 ^ a.
Proof. intros. apply Z.pow_pos_nonneg; lia. Qed.

Lemma digits53_range (m : positive) :
  Zpos (digits2_pos m) = 53 -> 2 ^ 52 <= Zpos m < 2 ^ 53.
Proof.
  intros H. pose proof (digits2_pos_range m) as R. rewrite H in R. exact R.
Qed.

Lemma xorb_sign (N1 N2 : Z) :
  N1 <> 0 -> N2 <> 0 -> xorb (N1 <? 0) (N2 <? 0) = (N1 * N2 <? 0).
Proof.
  intros H1 H2.
  destruct (Z.ltb_spec N1 0), (Z.ltb_spec N2 0), (Z.ltb_spec (N1 * N2) 0);
    cbn; try reflexivity; nia.
Qed.

Lemma cond_Zopp_abs (N : Z) (m : Z) :
  0 < m -> cond_Zopp (N <? 0) m = N * 1 -> m = Z.abs N.
Proof.
  intros Hm H. destruct (Z.ltb_spec N 0); cbn [cond_Zopp] in H; lia.
Qed.

(** A product that fits in 53 bits is exact.  A zero factor needs the
    other one not to be negative: the product is then +0. *)
Lemma mul_exact (N1 N2 f1 f2 : Z) :
  Z.abs (N1 * N2) < 2 ^ 53 ->
  Z.abs N1 < 2 ^ 53 -> Z.abs N2 < 2 ^ 53 ->
  (N1 = 0 -> 0 <= N2) -> (N2 = 0 -> 0 <= N1) ->
  -400 <= f1 <= 400 -> -400 <= f2 <= 400 ->
  Num.mul (canon N1 f1) (canon N2 f2) = canon (N1 * N2) (f1 + f2).
Proof.
  intros H12 H1 H2 S1 S2 Hf1 Hf2.
  destruct (Z.eq_dec N1 0) as [->|Z1].
  { destruct N2 as [|p|p]; [reflexivity | reflexivity | lia]. }
  destruct (Z.eq_dec N2 0) as [->|Z2].
  { rewrite Z.mul_0_r. destruct N1 as [|p|p]; [reflexivity | reflexivity | lia]. }
  assert (Z12 : N1 * N2 <> 0) by nia.
  destruct (canon_finite N1 f1 Z1 H1) as (m1 & e1 & -> & D1 & He1 & V1).
  destruct (canon_finite N2 f2 Z2 H2) as (m2 & e2 & -> & D2 & He2 & V2).
  destruct (canon_finite (N1 * N2) (f1 + f2) Z12 H12)
    as (m & e & -> & D & He & V).
  unfold Num.mul, SFmul.
  rewrite xorb_sign by assumption.
  pose proof (digits53_range m1 D1) as R1.
  pose proof (digits53_range m2 D2) as R2.
  pose proof (digits53_range m D) as R.
  pose proof (pow2_pos (f1 - e1) ltac:(lia)) as P1.
  pose proof (pow2_pos (f2 - e2) ltac:(lia)) as P2.
  pose proof (pow2_pos (f1 + f2 - e) ltac:(lia)) as P.
  (* magnitudes *)
  assert (A1 : Zpos m1 = Z.abs N1 * 2 ^ (f1 - e1))
    by (destruct (Z.ltb_spec N1 0); cbn [cond_Zopp] in V1; lia).
  assert (A2 : Zpos m2 = Z.abs N2 * 2 ^ (f2 - e2))
    by (destruct (Z.ltb_spec N2 0); cbn [cond_Zopp] in V2; lia).
  assert (A : Zpos m = Z.abs (N1 * N2) * 2 ^ (f1 + f2 - e))
    by (destruct (Z.ltb_spec (N1 * N2) 0); cbn [cond_Zopp] in V; lia).
  assert (Hprod : Zpos (m1 * m2)
                  = Z.abs (N1 * N2) * 2 ^ (f1 + f2 - (e1 + e2))).
  { rewrite Pos2Z.inj_mul, A1, A2, Z.abs_mul.
    replace (f1 + f2 - (e1 + e2)) with ((f1 - e1) + (f2 - e2)) by lia.
    rewrite pow2_split by lia. ring. }
  assert (Hj : 0 <= e - (e1 + e2)).
  { destruct (Z_lt_le_dec (e - (e1 + e2)) 0) as [Hneg|]; [|assumption].
    exfalso.
    assert (2 ^ (f1 + f2 - (e1 + e2)) <= 2 ^ (f1 + f2 - e))
      by (apply Z.pow_le_mono_r; lia).
    assert (2 ^ 52 * 2 ^ 52 <= Zpos (m1 * m2))
      by (rewrite Pos2Z.inj_mul; apply Z.mul_le_mono_nonneg; lia).
    assert (Zpos (m1 * m2) <= Zpos m) by (rewrite Hprod, A; nia).
    change (2 ^ 52) with 4503599627370496 in *.
    change (2 ^ 53) with 9007199254740992 in *. lia. }
  rewrite (binary_round_aux_exact _ (m1 * m2) m (e - (e1 + e2)) (e1 + e2));
    try assumption; try lia.
  - f_equal. lia.
  - rewrite Hprod, A, <- Z.mul_assoc, <- pow2_split by lia.
    f_equal. f_equal. lia.
Qed.

(** Dividing a non-negative number by [2^32] is exact. *)
Lemma div_two32_exact (N f : Z) :
  0 <= N < 2 ^ 53 -> -900 <= f <= 900 ->
  Num.div (canon N f) (Num.of_Z 4294967296) = canon N (f - 32).
Proof.
  intros HN Hf.
  destruct (Z.eq_dec N 0) as [->|Z0]; [reflexivity|].
  destruct (canon_finite N f Z0 ltac:(lia)) as (m & e & E & D & He & V).
  destruct N as [|p|p]; try lia.
  unfold canon in *. injection E as Em Ee.
  rewrite div_two32.
  - f_equal. lia.
  - rewrite digits_shift; [lia|].
    assert (Zpos (digits2_pos p) <= 53) by (apply digits2_pos_le; lia). lia.
  - assert (Zpos (digits2_pos p) <= 53) by (apply digits2_pos_le; lia). lia.
Qed.


Lemma canon_mantissa (N f : Z) (s : bool) (m : positive) (e : Z) :
  cond_Zopp (N <? 0) (Zpos m) = N * 2 ^ (f - e) -> e <= f ->
  Zpos m = Z.abs N * 2 ^ (f - e).
Proof.
  intros V He. pose proof (pow2_pos (f - e) ltac:(lia)).
  destruct (Z.ltb_spec N 0); cbn [cond_Zopp] in V; nia.
Qed.

(** Two mantissas of 53 bits compare as the integers they scale. *)
Lemma magnitude_compare (A1 A2 : Z) (m1 m2 : positive) (e1 e2 f : Z) :
  0 < A1 -> 0 < A2 ->
  Zpos (digits2_pos m1) = 53 -> Zpos (digits2_pos m2) = 53 ->
  e1 <= f -> e2 <= f ->
  Zpos m1 = A1 * 2 ^ (f - e1) -> Zpos m2 = A2 * 2 ^ (f - e2) ->
  match e1 ?= e2 with
  | Lt => Lt
  | Gt => Gt
  | Eq => Pos.compare_cont Eq m1 m2
  end = (A1 ?= A2).
Proof.
  intros P1 P2 D1 D2 H1 H2 V1 V2.
  pose proof (digits53_range m1 D1) as R1.
  pose proof (digits53_range m2 D2) as R2.
  change (2 ^ 52) with 4503599627370496 in *.
  change (2 ^ 53) with 9007199254740992 in *.
  destruct (Z.compare_spec e1 e2) as [E | L | G].
  - subst e2. change (Pos.compare_cont Eq m1 m2) with (Zpos m1 ?= Zpos m2).
    rewrite V1, V2.
    pose proof (pow2_pos (f - e1) ltac:(lia)).
    destruct (Z.compare_spec A1 A2);
      [ apply Z.compare_eq_iff; subst; reflexivity
      | apply Z.compare_lt_iff; nia
      | apply Z.compare_gt_iff; nia ].
  - symmetry. apply Z.compare_lt_iff.
    pose proof (pow2_pos (f - e2) ltac:(lia)) as Pa.
    assert (Pb : 2 <= 2 ^ (e2 - e1))
      by (change 2 with (2 ^ 1) at 1; apply Z.pow_le_mono_r; lia).
    replace (f - e1) with ((f - e2) + (e2 - e1)) in V1 by lia.
    rewrite pow2_split in V1 by lia.
    destruct (Z_lt_le_dec A1 A2); [assumption|]. exfalso.
    assert (A2 * 2 ^ (f - e2) <= A1 * 2 ^ (f - e2)) by nia.
    assert (A1 * 2 ^ (f - e2) * 2 <= A1 * 2 ^ (f - e2) * 2 ^ (e2 - e1)) by nia.
    nia.
  - symmetry. apply Z.compare_gt_iff.
    pose proof (pow2_pos (f - e1) ltac:(lia)) as Pa.
    assert (Pb : 2 <= 2 ^ (e1 - e2))
      by (change 2 with (2 ^ 1) at 1; apply Z.pow_le_mono_r; lia).
    replace (f - e2) with ((f - e1) + (e1 - e2)) in V2 by lia.
    rewrite pow2_split in V2 by lia.
    destruct (Z_lt_le_dec A2 A1); [assumption|]. exfalso.
    assert (A1 * 2 ^ (f - e1) <= A2 * 2 ^ (f - e1)) by nia.
    assert (A2 * 2 ^ (f - e1) * 2 <= A2 * 2 ^ (f - e1) * 2 ^ (e1 - e2)) by nia.
    nia.
Qed.

(** Numbers on a common exponent compare as their integers. *)
Lemma compare_canon (N1 N2 f : Z) :
  Z.abs N1 < 2 ^ 53 -> Z.abs N2 < 2 ^ 53 ->
  SFcompare (canon N1 f) (canon N2 f) = Some (N1 ?= N2).
Proof.
  intros H1 H2.
  destruct (Z.eq_dec N1 0) as [->|Z1].
  { destruct N2 as [|p|p]; reflexivity. }
  destruct (Z.eq_dec N2 0) as [->|Z2].
  { destruct N1 as [|p|p]; [lia | reflexivity | reflexivity]. }
  destruct (canon_finite N1 f Z1 H1) as (m1 & e1 & -> & D1 & He1 & V1).
  destruct (canon_finite N2 f Z2 H2) as (m2 & e2 & -> & D2 & He2 & V2).
  apply (canon_mantissa N1 f false) in V1; [|lia].
  apply (canon_mantissa N2 f false) in V2; [|lia].
  pose proof (magnitude_compare (Z.abs N1) (Z.abs N2) m1 m2 e1 e2 f
                ltac:(lia) ltac:(lia) D1 D2 ltac:(lia) ltac:(lia) V1 V2) as M.
  cbn [SFcompare].
  destruct (Z.ltb_spec N1 0), (Z.ltb_spec N2 0); f_equal.
  - transitivity (CompOpp (Z.abs N1 ?= Z.abs N2)).
    + rewrite <- M. destruct (e1 ?= e2); reflexivity.
    + rewrite <- Z.compare_antisym.
      rewrite !Z.abs_neq by lia. apply Z.compare_opp.
  - symmetry. apply Z.compare_lt_iff. lia.
  - symmetry. apply Z.compare_gt_iff. lia.
  - rewrite M, !Z.abs_eq by lia. reflexivity.
Qed.

Lemma ltb_canon (N1 N2 f : Z) :
  Z.abs N1 < 2 ^ 53 -> Z.abs N2 < 2 ^ 53 ->
  Num.ltb (canon N1 f) (canon N2 f) = (N1 <? N2).
Proof.
  intros H1 H2. unfold Num.ltb, SFltb. rewrite compare_canon by assumption.
  unfold Z.ltb. destruct (N1 ?= N2); reflexivity.
Qed.

Lemma leb_canon (N1 N2 f : Z) :
  Z.abs N1 < 2 ^ 53 -> Z.abs N2 < 2 ^ 53 ->
  Num.leb (canon N1 f) (canon N2 f) = (N1 <=? N2).
Proof.
  intros H1 H2. unfold Num.leb, SFleb. rewrite compare_canon by assumption.
  unfold Z.leb. destruct (N1 ?= N2); reflexivity.
Qed.

Lemma eqb_canon_refl (N f : Z) :
  Z.abs N < 2 ^ 53 -> Num.eqb (canon N f) (canon N f) = true.
Proof.
  intros H. unfold Num.eqb, SFeqb. rewrite compare_canon by assumption.
  rewrite Z.compare_refl. reflexivity.
Qed.

(** [Math.floor] of [N * 2^f], for [f <= 0], is the integer quotient. *)
Lemma floor_canon (N f : Z) :
  Z.abs N < 2 ^ 53 -> -900 <= f <= 0 ->
  Num.floor (canon N f) = canon (N / 2 ^ (- f)) 0.
Proof.
  intros HN Hf.
  destruct (Z.eq_dec N 0) as [->|Z0]; [reflexivity|].
  destruct (canon_finite N f Z0 HN) as (m & e & E & D & He & V).
  rewrite E.
  pose proof (canon_mantissa N f false m e V ltac:(lia)) as A.
  pose proof (pow2_pos (f - e) ltac:(lia)) as Pfe.
  pose proof (pow2_pos (- f) ltac:(lia)) as Pf.
  unfold Num.floor.
  destruct e as [|k|k]; [| lia |].
  - (* the number is an integer *)
    assert (f = 0) by lia. subst f.
    change (2 ^ (- 0)) with 1. rewrite Z.div_1_r, <- E. reflexivity.
  - assert (Hk : 2 ^ Zpos k = 2 ^ (- f) * 2 ^ (f - Zneg k)).
    { rewrite <- pow2_split by lia. f_equal. lia. }
    assert (Hq : Z.shiftr (Zpos m) (Zpos k) = Z.abs N / 2 ^ (- f)).
    { rewrite Z.shiftr_div_pow2 by lia.
      rewrite A, Hk. apply Z.div_mul_cancel_r; lia. }
    set (q := Z.abs N / 2 ^ (- f)) in *.
    assert (Hq0 : 0 <= q) by (subst q; apply Z.div_pos; lia).
    assert (Hq1 : q <= Z.abs N)
      by (subst q; apply Z.div_le_upper_bound; nia).
    rewrite Hq.
    destruct (Z.ltb_spec N 0) as [Hneg | Hpos].
    + rewrite Z.shiftl_mul_pow2 by lia.
      destruct (Z.eqb_spec (q * 2 ^ Zpos k) (Zpos m)) as [Hex | Hin].
      * (* exact *)
        assert (Hd : Z.abs N = q * 2 ^ (- f)).
        { rewrite A, Hk in Hex. nia. }
        assert (N / 2 ^ (- f) = - q).
        { replace N with (- q * 2 ^ (- f)) by lia. apply Z.div_mul. lia. }
        rewrite H.
        assert (0 < q) by nia.
        rewrite <- (normalize_exact (- q) 0 0) by lia.
        rewrite Z.pow_0_r, Z.mul_1_r.
        destruct q; try lia. reflexivity.
      * assert (Hr : Z.abs N mod 2 ^ (- f) <> 0).
        { intros Hz. apply Hin.
          pose proof (Z.div_mod (Z.abs N) (2 ^ (- f)) ltac:(lia)) as DM.
          fold q in DM. rewrite A, Hk. nia. }
        assert (N / 2 ^ (- f) = - q - 1).
        { symmetry.
          apply (Z.div_unique_pos N (2 ^ (- f)) (- q - 1)
                   (2 ^ (- f) - Z.abs N mod 2 ^ (- f))).
          - pose proof (Z.mod_pos_bound (Z.abs N) (2 ^ (- f)) Pf). lia.
          - pose proof (Z.div_mod (Z.abs N) (2 ^ (- f)) ltac:(lia)) as DM.
            fold q in DM. nia. }
        assert (Hf0 : f < 0).
        { destruct (Z.eq_dec f 0) as [->|]; [|lia].
          exfalso. apply Hr. change (2 ^ (- 0)) with 1. apply Z.mod_1_r. }
        assert (2 <= 2 ^ (- f))
          by (change 2 with (2 ^ 1) at 1; apply Z.pow_le_mono_r; lia).
        pose proof (Z.div_mod (Z.abs N) (2 ^ (- f)) ltac:(lia)) as DM.
        pose proof (Z.mod_pos_bound (Z.abs N) (2 ^ (- f)) Pf) as MB.
        fold q in DM.
        rewrite H. apply of_Z_canon.
        change (2 ^ 53) with 9007199254740992 in *. nia.
    + replace (N / 2 ^ (- f)) with q
        by (subst q; rewrite Z.abs_eq by lia; reflexivity).
      rewrite <- (normalize_exact q 0 0) by lia.
      rewrite Z.pow_0_r, Z.mul_1_r. reflexivity.
Qed.

Lemma trunc_canon (z : Z) :
  Z.abs z < 2 ^ 53 -> Num.trunc (canon z 0) = Some z.
Proof.
  intros Hz.
  destruct (Z.eq_dec z 0) as [->|Z0]; [reflexivity|].
  destruct (canon_finite z 0 Z0 Hz) as (m & e & E & D & He & V).
  rewrite E.
  pose proof (canon_mantissa z 0 false m e V ltac:(lia)) as A.
  unfold Num.trunc. f_equal.
  assert (Hm : match e with
               | Zneg k => Z.shiftr (Zpos m) (Zpos k)
               | _ => Z.shiftl (Zpos m) e
               end = Z.abs z).
  { destruct e as [|k|k]; [| lia |].
    - rewrite Z.shiftl_0_r, A. change (2 ^ (0 - 0)) with 1. lia.
    - rewrite Z.shiftr_div_pow2, A by lia.
      replace (0 - Zneg k) with (Zpos k) by lia.
      apply Z.div_mul. pose proof (pow2_pos (Zpos k) ltac:(lia)). lia. }
  rewrite Hm. destruct (Z.ltb_spec z 0); lia.
Qed.

Lemma to_integer_canon (z : Z) :
  Z.abs z < 2 ^ 53 -> Num.to_integer (canon z 0) = Some z.
Proof.
  intros Hz. unfold Num.to_integer.
  rewrite trunc_canon, of_Z_canon, eqb_canon_refl by assumption.
  reflexivity.
Qed.

End DyadicFacts.

(* ================================================================== *)
(** ** The generator: ranges of [float], [int] and [pick] *)

Module RngNumeric.
Import Dyadic DyadicFacts Rng.

Ltac big := change (2 ^ 53) with 9007199254740992 in *;
            change (2 ^ 32) with 4294967296 in *;
            change (2 ^ 20) with 1048576 in *;
            change (2 ^ 19) with 524288 in *.

(** The value drawn is a 32-bit word scaled by [2^-32], exactly. *)
Lemma next_exact (r : rng) :
  exists u, 0 <= u < 4294967296 /\ fst (next r) = canon u (-32).
Proof.
  rewrite RngFacts.next_value.
  pose proof (RngFacts.mix_range (advance (t r))) as H.
  generalize dependent (mix (advance (t r))). intros u H.
  exists u. split; [exact H|].
  rewrite (of_Z_canon u) by (change (2 ^ 53) with 9007199254740992; lia).
  rewrite div_two32_exact
    by (change (2 ^ 53) with 9007199254740992; lia).
  reflexivity.
Qed.

Lemma next_split (r : rng) : next r = (fst (next r), snd (next r)).
Proof. destruct (next r). reflexivity. Qed.

(** X1: the division by [2^32] loses nothing: a value drawn, times
    [2^32], is the 32-bit word it was made from, so every draw is a
    multiple of [2^-32]. *)
Theorem next_times_two32 (r : rng) :
  (fst (next r) * Num.of_Z 4294967296)%flt
  = Num.of_Z (mix (advance (t r))).
Proof.
  rewrite RngFacts.next_value.
  pose proof (RngFacts.mix_range (advance (t r))) as H.
  generalize dependent (mix (advance (t r))). intros u H.
  rewrite (of_Z_canon u) by (change (2 ^ 53) with 9007199254740992; lia).
  rewrite div_two32_exact
    by (change (2 ^ 53) with 9007199254740992; lia).
  change (Num.of_Z 4294967296) with (canon 1 32).
  rewrite mul_exact by (big; lia).
  rewrite Z.mul_1_r. reflexivity.
Qed.

Lemma of_Z_scaled (a : Z) :
  Z.abs a <= 2 ^ 20 -> Num.of_Z a = canon (a * 2 ^ 32) (-32).
Proof.
  intros H. rewrite of_Z_canon by (big; lia).
  symmetry. apply (canon_shift a 32 0); big; lia.
Qed.

Lemma sub_of_Z (a b : Z) :
  Z.abs a <= 2 ^ 20 -> Z.abs b <= 2 ^ 20 ->
  (Num.of_Z b - Num.of_Z a)%flt = canon (b - a) 0.
Proof.
  intros Ha Hb. rewrite !of_Z_canon by (big; lia).
  apply sub_exact; big; lia.
Qed.

(** X2: for integer bounds [min < max] within [2^20] in magnitude,
    [float(min, max)] returns a number [v] with [min <= v < max]. *)
Theorem float_in_range (a b : Z) (r : rng) :
  - 2 ^ 20 <= a -> a < b -> b <= 2 ^ 20 ->
  let v := fst (float_ (Some (Num.of_Z a)) (Some (Num.of_Z b)) r) in
  Num.leb (Num.of_Z a) v = true /\ Num.ltb v (Num.of_Z b) = true.
Proof.
  intros Ha Hab Hb v. subst v.
  unfold float_. rewrite next_split. cbn [fst].
  destruct (next_exact r) as (u & Hw & ->).
  rewrite sub_of_Z by (big; lia).
  rewrite mul_exact by (big; nia).
  change (0 + -32) with (-32).
  rewrite !(of_Z_scaled a), (of_Z_scaled b) by (big; lia).
  rewrite add_exact by (big; nia).
  rewrite leb_canon, ltb_canon by (big; nia).
  split; [apply Z.leb_le | apply Z.ltb_lt]; big; nia.
Qed.

Lemma float_in_range_witness :
  - 2 ^ 20 <= -3 /\ -3 < 5 /\ 5 <= 2 ^ 20
  /\ (let v := fst (float_ (Some (Num.of_Z (-3))) (Some (Num.of_Z 5))
                      (createRng SeedUndefined)) in
      Num.leb (Num.of_Z (-3)) v = true /\ Num.ltb v (Num.of_Z 5) = true).
Proof.
  split; [cbn; lia|]. split; [lia|]. split; [cbn; lia|].
  apply (float_in_range (-3) 5 (createRng SeedUndefined)); cbn; lia.
Defined.

(** X3: [float()] with its default bounds 0 and 1 returns the very value
    [rand()] drew, and leaves the generator as one draw does. *)
Theorem float_default (r : rng) : float_ None None r = next r.
Proof.
  unfold float_.
  destruct (next_exact r) as (u & Hw & Hv).
  destruct (next r) as [v r']. cbn [fst] in Hv. subst v. f_equal.
  change (Num.one - Num.zero)%flt with (canon 1 0).
  rewrite mul_exact by (big; lia).
  rewrite Z.mul_1_l. change (0 + -32) with (-32).
  change Num.zero with (canon 0 (-32)).
  rewrite add_exact by (big; lia). reflexivity.
Qed.

(** X4: for integer bounds [min <= max] within [2^19] in magnitude,
    [int(min, max)] returns an integer from [min] to [max], both
    included. *)
Theorem int_in_range (a b : Z) (r : rng) :
  - 2 ^ 19 <= a -> a <= b -> b <= 2 ^ 19 ->
  exists k, a <= k <= b
            /\ fst (int (Num.of_Z a) (Num.of_Z b) r) = Num.of_Z k.
Proof.
  intros Ha Hab Hb.
  unfold int. rewrite next_split. cbn [fst].
  destruct (next_exact r) as (u & Hw & ->).
  rewrite sub_of_Z by (big; lia).
  change Num.one with (canon 1 0).
  rewrite add_exact by (big; lia).
  rewrite mul_exact by (big; nia).
  change (-32 + 0) with (-32).
  rewrite of_Z_scaled by (big; lia).
  rewrite add_exact by (big; nia).
  rewrite floor_canon by (big; nia).
  change (2 ^ (- -32)) with 4294967296.
  big.
  set (k := (a * 4294967296 + u * (b - a + 1)) / 4294967296).
  assert (Hk : a <= k <= b).
  { subst k. split.
    - apply Z.div_le_lower_bound; nia.
    - apply Z.lt_succ_r. apply Z.div_lt_upper_bound; nia. }
  exists k. split; [exact Hk|].
  symmetry. apply of_Z_canon. big. lia.
Qed.

Lemma int_in_range_witness :
  - 2 ^ 19 <= 1 /\ 1 <= 6 /\ 6 <= 2 ^ 19
  /\ exists k, 1 <= k <= 6
               /\ fst (int (Num.of_Z 1) (Num.of_Z 6) (createRng SeedUndefined))
                  = Num.of_Z k.
Proof.
  split; [cbn; lia|]. split; [lia|]. split; [cbn; lia|].
  apply (int_in_range 1 6 (createRng SeedUndefined)); cbn; lia.
Defined.

Lemma add_negative_zero (N f : Z) :
  (canon N f + S754_zero true)%flt = canon N f.
Proof. destruct N; reflexivity. Qed.

(** X5: with the bounds the wrong way round [int] neither fails nor swaps
    them: it returns an integer from [maxInclusive + 1] to
    [minInclusive], so never [maxInclusive]. *)
Theorem int_reversed_bounds (a b : Z) (r : rng) :
  - 2 ^ 19 <= b -> b < a -> a <= 2 ^ 19 ->
  exists k, b + 1 <= k <= a
            /\ fst (int (Num.of_Z a) (Num.of_Z b) r) = Num.of_Z k.
Proof.
  intros Hb Hab Ha.
  unfold int. rewrite next_split. cbn [fst].
  destruct (next_exact r) as (u & Hw & ->).
  rewrite sub_of_Z by (big; lia).
  change Num.one with (canon 1 0).
  rewrite add_exact by (big; lia).
  destruct (Z.eq_dec u 0) as [-> | Hu].
  - exists a. split; [lia|].
    replace (canon 0 (-32) * canon (b - a + 1) 0)%flt
      with (S754_zero (negb (Z.eqb (b - a + 1) 0))).
    + rewrite (of_Z_canon a) by (big; lia).
      destruct (Z.eqb (b - a + 1) 0); cbn [negb].
      * change (S754_zero false) with (canon 0 0).
        rewrite add_exact by (big; lia).
        rewrite Z.add_0_r, floor_canon by (big; lia).
        change (2 ^ (- 0)) with 1. rewrite Z.div_1_r. reflexivity.
      * rewrite add_negative_zero, floor_canon by (big; lia).
        change (2 ^ (- 0)) with 1. rewrite Z.div_1_r. reflexivity.
    + destruct (b - a + 1) eqn:E; try reflexivity. lia.
  - rewrite mul_exact by (big; nia).
    change (-32 + 0) with (-32).
    rewrite of_Z_scaled by (big; lia).
    rewrite add_exact by (big; nia).
    rewrite floor_canon by (big; nia).
    change (2 ^ (- -32)) with 4294967296.
    big.
    set (k := (a * 4294967296 + u * (b - a + 1)) / 4294967296).
    assert (Hk : b + 1 <= k <= a).
    { subst k. split.
      - apply Z.div_le_lower_bound; nia.
      - apply Z.lt_succ_r. apply Z.div_lt_upper_bound; nia. }
    exists k. split; [exact Hk|].
    symmetry. apply of_Z_canon. big. lia.
Qed.

Lemma int_reversed_bounds_witness :
  - 2 ^ 19 <= 1 /\ 1 < 6 /\ 6 <= 2 ^ 19
  /\ exists k, 1 + 1 <= k <= 6
               /\ fst (int (Num.of_Z 6) (Num.of_Z 1) (createRng SeedUndefined))
                  = Num.of_Z k.
Proof.
  split; [cbn; lia|]. split; [lia|]. split; [cbn; lia|].
  apply (int_reversed_bounds 6 1 (createRng SeedUndefined)); cbn; lia.
Defined.

(** X6: [pick] on an array that is not empty (of at most [2^20] elements)
    returns one of its elements, never [undefined], and makes one draw. *)
Theorem pick_returns_element (A : Type) (arr : list A) (r : rng) :
  arr <> [] -> Z.of_nat (List.length arr) <= 2 ^ 20 ->
  exists x, In x arr /\ pick arr r = (Some x, snd (next r)).
Proof.
  intros Hne Hlen.
  unfold pick. rewrite next_split. cbn [fst].
  destruct (next_exact r) as (u & Hw & ->).
  set (L := Z.of_nat (List.length arr)) in *.
  assert (HL : 0 < L) by (subst L; destruct arr; [congruence | cbn; lia]).
  rewrite (of_Z_canon L) by (big; lia).
  rewrite mul_exact by (big; nia).
  change (-32 + 0) with (-32).
  rewrite floor_canon by (big; nia).
  change (2 ^ (- -32)) with 4294967296.
  set (i := u * L / 4294967296).
  assert (Hi : 0 <= i < L).
  { subst i. split.
    - apply Z.div_pos; nia.
    - apply Z.div_lt_upper_bound; nia. }
  unfold array_get.
  rewrite to_integer_canon by (big; lia).
  destruct (Z.ltb_spec i 0) as [|_]; [lia|].
  destruct (nth_error arr (Z.to_nat i)) as [x|] eqn:E.
  - exists x. split; [eapply nth_error_In; exact E | reflexivity].
  - exfalso. apply nth_error_None in E. subst L. lia.
Qed.

Lemma pick_returns_element_witness :
  let arr := [10; 20; 30] in
  let r := createRng SeedUndefined in
  arr <> [] /\ Z.of_nat (List.length arr) <= 2 ^ 20
  /\ exists x, In x arr /\ pick arr r = (Some x, snd (next r)).
Proof.
  intros arr r.
  split; [discriminate|]. split; [cbn; lia|].
  apply (pick_returns_element Z arr r); [discriminate | cbn; lia].
Defined.

End RngNumeric.

(* ================================================================== *)
(** ** The generator against mulberry32 and FNV-1a *)

Module ReferenceFacts.
Import Int32 Rng Reference.

Local Notation "'U' z" := (z mod 4294967296) (at level 10, z at level 9).

Lemma U_range (z : Z) : 0 <= U z < 4294967296.
Proof. apply Z.mod_pos_bound. lia. Qed.

Lemma U_ToInt32 (z : Z) : U (ToInt32 z) = U z.
Proof.
  unfold ToInt32, two32, two31.
  destruct (z mod 4294967296 <? 2147483648).
  - apply Z.mod_mod. lia.
  - rewrite <- (Z.mod_add _ 1) by lia.
    replace (z mod 4294967296 - 4294967296 + 1 * 4294967296)
      with (z mod 4294967296) by lia.
    apply Z.mod_mod. lia.
Qed.

Lemma U_lxor (a b : Z) : U (Z.lxor a b) = Z.lxor (U a) (U b).
Proof.
  change 4294967296 with (2 ^ 32).
  apply Z.bits_inj'. intros i Hi.
  rewrite Z.lxor_spec, !Z.testbit_mod_pow2, Z.lxor_spec by lia.
  destruct (i <? 32); reflexivity.
Qed.

Lemma U_lor (a b : Z) : U (Z.lor a b) = Z.lor (U a) (U b).
Proof.
  change 4294967296 with (2 ^ 32).
  apply Z.bits_inj'. intros i Hi.
  rewrite Z.lor_spec, !Z.testbit_mod_pow2, Z.lor_spec by lia.
  destruct (i <? 32); reflexivity.
Qed.

Lemma U_xor (a b : Z) : U (xor a b) = Z.lxor (U a) (U b).
Proof. unfold xor. rewrite U_lxor, !U_ToInt32. reflexivity. Qed.

Lemma U_or (a b : Z) : U (or a b) = Z.lor (U a) (U b).
Proof. unfold or. rewrite U_lor, !U_ToInt32. reflexivity. Qed.

Lemma U_imul (a b : Z) : U (imul a b) = U (U a * U b).
Proof.
  unfold imul. rewrite U_ToInt32.
  rewrite Z.mul_mod, !U_ToInt32 by lia. reflexivity.
Qed.

Lemma U_small (z : Z) : 0 <= z < 4294967296 -> U z = z.
Proof. intros. apply Z.mod_small. assumption. Qed.

Lemma ushr_U (a n : Z) :
  0 <= n < 32 -> U (ushr a n) = Z.shiftr (U a) n.
Proof.
  intros Hn. unfold ushr, ToUint32, two32.
  rewrite (Z.mod_small n 32) by lia.
  apply U_small.
  pose proof (U_range a) as R.
  rewrite Z.shiftr_div_pow2 by lia.
  split.
  - apply Z.div_pos; [lia | apply Z.pow_pos_nonneg; lia].
  - apply Z.div_lt_upper_bound; [apply Z.pow_pos_nonneg; lia|].
    assert (1 <= 2 ^ n) by (change 1 with (2 ^ 0); apply Z.pow_le_mono_r; lia).
    nia.
Qed.

(** The body of [rand] computes the mixing function of mulberry32 on
    the low 32 bits of the counter. *)
Lemma mix_is_mix32 (t : Z) : mix t = mix32 (U t).
Proof.
  unfold mix, mix32.
  set (x1 := imul (xor t (ushr t 15)) (or 1 t)).
  set (z1 := U (Z.lxor (U t) (Z.shiftr (U t) 15) * Z.lor (U t) 1)).
  assert (H1 : U x1 = z1).
  { subst x1 z1. rewrite U_imul, U_xor, U_or, ushr_U by lia.
    change (U 1) with 1. rewrite (Z.lor_comm 1). reflexivity. }
  set (x2 := xor x1 (x1 + imul (xor x1 (ushr x1 7)) (or 61 x1))).
  set (z2 := Z.lxor z1 (U (z1 + Z.lxor z1 (Z.shiftr z1 7) * Z.lor z1 61))).
  assert (H2 : U x2 = z2).
  { subst x2 z2. rewrite U_xor, H1. f_equal.
    rewrite <- Z.add_mod_idemp_l, H1 by lia.
    rewrite <- Z.add_mod_idemp_r by lia.
    rewrite U_imul, U_xor, U_or, ushr_U, H1 by lia.
    change (U 61) with 61. rewrite (Z.lor_comm 61).
    rewrite ?Z.mod_mod by lia.
    rewrite Z.add_mod_idemp_r by lia. reflexivity. }
  assert (R : ushr (xor x2 (ushr x2 14)) 0 = U (xor x2 (ushr x2 14))).
  { unfold ushr at 1. change (0 mod 32) with 0.
    rewrite Z.shiftr_0_r. reflexivity. }
  rewrite R, U_xor, ushr_U, H2 by lia. reflexivity.
Qed.

Lemma hash_step_U (h c : Z) :
  0 <= c < 4294967296 ->
  U (hash_step h c) = U (Z.lxor (U h) c * 16777619).
Proof.
  intros Hc. unfold hash_step.
  rewrite U_imul, U_xor, (U_small c), (U_small 16777619) by lia.
  reflexivity.
Qed.

Lemma hash_fold (str : list Z) :
  Forall (fun c => 0 <= c < 65536) str ->
  forall h h', U h = h' ->
    U (fold_left hash_step str h)
    = fold_left (fun h c => U (Z.lxor h c * 16777619)) str h'.
Proof.
  induction 1 as [|c str Hc _ IH]; intros h h' E; cbn [fold_left].
  - exact E.
  - apply IH. rewrite hash_step_U by lia. rewrite E. reflexivity.
Qed.

(** X7: [hashStringToUint32] is FNV-1a on 32 bits over the UTF-16 code
    units of the string: the signed 32-bit operators of the code compute
    the unsigned recurrence [h := ((h xor c) * 16777619) mod 2^32] from
    2166136261. *)
Theorem hash_is_fnv1a (str : jsstring) :
  Forall (fun c => 0 <= c < 65536) str ->
  hashStringToUint32 str = fnv1a str.
Proof.
  intros H. unfold hashStringToUint32, fnv1a.
  unfold ushr. change (0 mod 32) with 0. rewrite Z.shiftr_0_r.
  unfold ToUint32, two32.
  apply hash_fold; [exact H | reflexivity].
Qed.

Lemma hash_is_fnv1a_witness :
  Forall (fun c => 0 <= c < 65536) (units_of "default")
  /\ hashStringToUint32 (units_of "default") = fnv1a (units_of "default").
Proof.
  assert (H : Forall (fun c => 0 <= c < 65536) (units_of "default"))
    by (repeat constructor; cbn; lia).
  split; [exact H|].
  apply (hash_is_fnv1a (units_of "default")). exact H.
Defined.


(** Published test vectors of FNV-1a (32 bits). *)
Example fnv1a_vectors :
  fnv1a [] = 0x811c9dc5
  /\ fnv1a (units_of "a") = 0xe40c292c
  /\ fnv1a (units_of "foobar") = 0xbf9cf968.
Proof. repeat split; vm_compute; reflexivity. Qed.

Lemma next32_of (r : rng) (c : Z) :
  0 <= t r -> t r + increment < two53 -> c = U (t r) ->
  fst (next r) = fst (next32 c) /\ snd (next32 c) = U (t (snd (next r))).
Proof.
  intros H0 Hb ->.
  rewrite RngFacts.next_value, RngFacts.next_t.
  unfold next32. cbn [fst snd].
  unfold advance. rewrite RngFacts.round53_small by assumption.
  unfold increment.
  rewrite Z.add_mod_idemp_l by lia.
  rewrite mix_is_mix32. split; reflexivity.
Qed.

Lemma stream_is_stream32 (k : nat) :
  forall (r : rng) (c : Z),
    0 <= t r -> t r + Z.of_nat k * increment < two53 -> c = U (t r) ->
    stream k r = stream32 k c.
Proof.
  unfold increment, two53.
  induction k as [|k IH]; intros r c H0 Hb Hc; cbn [stream stream32].
  - reflexivity.
  - destruct (next32_of r c H0) as [Hv Hs];
      [unfold increment, two53; lia | exact Hc |].
    rewrite Hv. f_equal.
    assert (Ht : t (snd (next r)) = t r + 0x6D2B79F5).
    { rewrite RngFacts.next_t. unfold advance, increment.
      apply RngFacts.round53_small. unfold two53. lia. }
    apply IH; [lia | lia | exact Hs].
Qed.

(** X8: for the first 4,000,000 draws the generator made by [createRng]
    gives the stream of mulberry32 in unsigned arithmetic with a counter
    that wraps at [2^32], whatever the seed. *)
Theorem stream_matches_reference (s : seed_arg) (k : nat) :
  Z.of_nat k <= 4000000 ->
  stream k (createRng s) = stream32 k (t (createRng s)).
Proof.
  intros Hk.
  pose proof (RngFacts.createRng_range s) as H0.
  apply stream_is_stream32.
  - lia.
  - unfold increment, two53. lia.
  - symmetry. apply Z.mod_small. exact H0.
Qed.

Lemma stream_matches_reference_witness :
  Z.of_nat 3 <= 4000000
  /\ stream 3 (createRng SeedUndefined)
     = stream32 3 (t (createRng SeedUndefined)).
Proof.
  split; [cbn; lia|].
  apply (stream_matches_reference SeedUndefined 3). cbn. lia.
Defined.

Lemma skip_succ (k : nat) :
  forall r, skip (S k) r = snd (next (skip k r)).
Proof.
  induction k as [|k IH]; intros r.
  - reflexivity.
  - change (skip (S (S k)) r) with (skip (S k) (snd (next r))).
    rewrite IH. reflexivity.
Qed.

(** X9: the counter is a number, not a 32-bit word, and past [2^53] its
    additions are rounded.  From the default seed the counter is exact
    after 4,917,758 draws; the next addition is rounded (one less than
    the exact sum), and that draw is not the one of mulberry32 with a
    wrapping counter. *)
Theorem stream_departs_from_reference :
  let r0 := createRng SeedUndefined in
  let k := Z.to_nat 4917758 in
  t (skip k r0) = t r0 + 4917758 * 0x6D2B79F5
  /\ t (skip (S k) r0) = t r0 + 4917759 * 0x6D2B79F5 - 1
  /\ fst (next (skip k r0))
     <> fst (next32 (U (t r0 + 4917758 * 0x6D2B79F5))).
Proof.
  intros r0 k.
  assert (T0 : t r0 = 2470140894) by reflexivity.
  assert (Hk : k = S (Z.to_nat 4917757)).
  { subst k. rewrite <- Z2Nat.inj_succ by lia. reflexivity. }
  assert (T1 : t (skip (Z.to_nat 4917757) r0)
               = t r0 + 4917757 * 0x6D2B79F5).
  { rewrite RngFacts.skip_exact.
    - rewrite Z2Nat.id by lia. reflexivity.
    - rewrite T0. lia.
    - rewrite Z2Nat.id by lia. rewrite T0. unfold increment, two53. lia. }
  assert (T2 : t (skip k r0) = t r0 + 4917758 * 0x6D2B79F5).
  { rewrite Hk, skip_succ, RngFacts.next_t, T1, T0.
    vm_compute. reflexivity. }
  split; [exact T2|].
  split.
  - rewrite skip_succ, RngFacts.next_t, T2, T0. vm_compute. reflexivity.
  - rewrite RngFacts.next_value, T2, T0.
    vm_compute. intros H. discriminate H.
Qed.

Lemma stream_of_t (k : nat) :
  forall r1 r2, t r1 = t r2 -> stream k r1 = stream k r2.
Proof.
  induction k as [|k IH]; intros r1 r2 E; cbn [stream].
  - reflexivity.
  - rewrite !RngFacts.next_value, E. f_equal.
    apply IH. rewrite !RngFacts.next_t, E. reflexivity.
Qed.

Lemma integer_seed_state (z : Z) :
  Z.abs z < 2 ^ 53 -> t (createRng (SeedNumber (Num.of_Z z))) = U z.
Proof.
  intros Hz. unfold createRng. cbn [t].
  unfold mulberry32, ToUint32_float.
  rewrite DyadicFacts.of_Z_canon, DyadicFacts.trunc_canon by assumption.
  reflexivity.
Qed.

(** X10: a numeric seed is used modulo [2^32]: integer seeds that differ
    by a multiple of [2^32] give the same stream. *)
Theorem integer_seeds_modulo (z1 z2 : Z) (k : nat) :
  Z.abs z1 < 2 ^ 53 -> Z.abs z2 < 2 ^ 53 -> U z1 = U z2 ->
  stream k (createRng (SeedNumber (Num.of_Z z1)))
  = stream k (createRng (SeedNumber (Num.of_Z z2))).
Proof.
  intros H1 H2 E. apply stream_of_t.
  rewrite !integer_seed_state by assumption. exact E.
Qed.

Lemma integer_seeds_modulo_witness :
  Z.abs (-1) < 2 ^ 53 /\ Z.abs 4294967295 < 2 ^ 53
  /\ U (-1) = U 4294967295
  /\ stream 2 (createRng (SeedNumber (Num.of_Z (-1))))
     = stream 2 (createRng (SeedNumber (Num.of_Z 4294967295))).
Proof.
  split; [cbn; lia|]. split; [cbn; lia|]. split; [reflexivity|].
  apply (integer_seeds_modulo (-1) 4294967295 2);
    [cbn; lia | cbn; lia | reflexivity].
Defined.

End ReferenceFacts.

(* ================================================================== *)
(** ** The world: ranges and draw counts *)

Module WorldNumeric.
Import Scene World WorldDefs WorldFacts Dyadic DyadicFacts RngNumeric.

Ltac big := change (2 ^ 53) with 9007199254740992 in *;
            change (2 ^ 32) with 4294967296 in *.

Lemma half_canon : Num.dec 5 10 = canon 2147483648 (-32).
Proof. vm_compute. reflexivity. Qed.

(** [(r - 0.5) * (2 h)] for a draw [r] and a small integer [h]. *)
Lemma centred_in_square (h u : Z) :
  0 < h <= 1000 -> 0 <= u < 4294967296 ->
  in_square h ((canon u (-32) - Num.dec 5 10) * Num.of_Z (2 * h))%flt = true.
Proof.
  intros Hh Hu. unfold in_square.
  rewrite half_canon.
  rewrite sub_exact by (big; lia).
  rewrite (of_Z_canon (2 * h)) by (big; lia).
  rewrite mul_exact by (big; nia).
  change (-32 + 0) with (-32).
  rewrite (of_Z_scaled (- h)), (of_Z_scaled h)
    by (change (2 ^ 20) with 1048576; lia).
  rewrite leb_canon, ltb_canon by (big; nia).
  apply andb_true_intro.
  split; [apply Z.leb_le | apply Z.ltb_lt]; big; nia.
Qed.

Lemma radius_in_range (u : Z) :
  0 <= u < 4294967296 ->
  let r := (Num.of_Z 6 + canon u (-32) * Num.of_Z 14)%flt in
  Num.leb (Num.of_Z 6) r = true /\ Num.ltb r (Num.of_Z 20) = true.
Proof.
  intros Hu r. subst r.
  rewrite (of_Z_canon 14) by (big; lia).
  rewrite mul_exact by (big; nia).
  change (-32 + 0) with (-32).
  rewrite (of_Z_scaled 6), (of_Z_scaled 20)
    by (change (2 ^ 20) with 1048576; lia).
  rewrite add_exact by (big; nia).
  rewrite leb_canon, ltb_canon by (big; nia).
  split; [apply Z.leb_le | apply Z.ltb_lt]; big; nia.
Qed.

Lemma rng_rand_exact (st : gen_state) :
  exists u, 0 <= u < 4294967296 /\ fst (rng_rand st) = canon u (-32).
Proof.
  destruct (next_exact (g_rng st)) as (u & Hu & E).
  exists u. split; [exact Hu|].
  unfold rng_rand. destruct (Rng.next (g_rng st)). exact E.
Qed.

Lemma patch_step_pushes_good (x : unit) (st : gen_state) :
  exists p, patch_in_range p
            /\ g_patches (snd (patch_step x st)) = g_patches st ++ [p].
Proof.
  unfold patch_step, addPatch.
  repeat (rewrite run_bind; cbv beta).
  set (st1 := snd (rng_rand st)).
  set (st2 := snd (rng_rand st1)).
  destruct (rng_rand_exact st) as (u1 & H1 & ->).
  destruct (rng_rand_exact st1) as (u2 & H2 & ->).
  destruct (rng_rand_exact st2) as (u3 & H3 & ->).
  eexists. split; [|reflexivity].
  unfold patch_in_range. cbn [patch_x patch_z patch_r patch_color].
  change (n 350) with (Num.of_Z (2 * 175)).
  rewrite !centred_in_square by lia.
  destruct (radius_in_range u3 H3) as [R1 R2].
  repeat split; assumption.
Qed.

Lemma patch_loop_good (k : nat) :
  forall st,
    Forall patch_in_range (g_patches st) ->
    Forall patch_in_range (g_patches (snd (for_loop k patch_step tt st))).
Proof.
  induction k as [|k IH]; intros st H.
  - exact H.
  - rewrite for_loop_succ.
    destruct (fst (patch_step tt st)).
    apply IH.
    destruct (patch_step_pushes_good tt st) as (p & Hp & ->).
    apply Forall_app. split; [exact H | constructor; [exact Hp | constructor]].
Qed.

(** *** Counting draws *)

Lemma skip_add (j k : nat) :
  forall r, Rng.skip (j + k) r = Rng.skip k (Rng.skip j r).
Proof.
  induction j as [|j IH]; intros r; cbn [Nat.add Rng.skip].
  - reflexivity.
  - apply IH.
Qed.

Lemma draws_weaken {A : Type} (lo hi lo' hi' : nat) (m : M A) :
  (lo' <= lo)%nat -> (hi <= hi')%nat -> draws lo hi m -> draws lo' hi' m.
Proof.
  intros Hl Hh H st. destruct (H st) as (k & Hk & E).
  exists k. split; [lia | exact E].
Qed.

Lemma draws_ret {A : Type} (a : A) : draws 0 0 (ret a).
Proof. intros st. exists 0%nat. split; [lia | reflexivity]. Qed.

Lemma draws_rand : draws 1 1 rng_rand.
Proof.
  intros st. exists 1%nat. split; [lia|].
  unfold rng_rand. cbn [Rng.skip].
  destruct (Rng.next (g_rng st)). reflexivity.
Qed.

Lemma draws_scene_add (os : list Object3D) : draws 0 0 (scene_add os).
Proof. intros st. exists 0%nat. split; [lia | reflexivity]. Qed.

Lemma draws_patches_push (p : patch) : draws 0 0 (patches_push p).
Proof. intros st. exists 0%nat. split; [lia | reflexivity]. Qed.

Lemma draws_paths_push (p : path) : draws 0 0 (paths_push p).
Proof. intros st. exists 0%nat. split; [lia | reflexivity]. Qed.

Lemma draws_bind {A B : Type} (l1 h1 l2 h2 : nat) (m : M A) (k : A -> M B) :
  draws l1 h1 m -> (forall a, draws l2 h2 (k a)) ->
  draws (l1 + l2) (h1 + h2) (bind m k).
Proof.
  intros Hm Hk st. rewrite run_bind.
  destruct (Hm st) as (j & Hj & Ej).
  destruct (Hk (fst (m st)) (snd (m st))) as (i & Hi & Ei).
  exists (j + i)%nat. split; [lia|].
  rewrite Ei, Ej, skip_add. reflexivity.
Qed.

Lemma draws_for_loop {S : Type} (lo hi : nat) (body : S -> M S) :
  (forall s, draws lo hi (body s)) ->
  forall k s, draws (k * lo) (k * hi) (for_loop k body s).
Proof.
  intros Hb k. induction k as [|k IH]; intros s; cbn [for_loop Nat.mul].
  - apply draws_ret.
  - apply draws_bind; [apply Hb | intros s'; apply IH].
Qed.

Ltac draws_step :=
  lazymatch goal with
  | |- draws _ _ (ret _) => apply draws_ret
  | |- draws _ _ rng_rand => apply draws_rand
  | |- draws _ _ (scene_add _) => apply draws_scene_add
  | |- draws _ _ (patches_push _) => apply draws_patches_push
  | |- draws _ _ (paths_push _) => apply draws_paths_push
  | |- draws _ _ (bind _ _) => eapply draws_bind; [| intros ? ]
  end.

Lemma patch_step_draws (x : unit) : draws 3 3 (patch_step x).
Proof.
  unfold patch_step, addPatch.
  eapply draws_weaken; [| | repeat draws_step]; lia.
Qed.

Lemma tree_step_draws_bounds (x : unit) : draws 3 4 (tree_step x).
Proof.
  intros [[sd t0] sc pa pt].
  cbv [tree_step bind rng_rand Rng.next Rng.rand ret addTree scene_add
       fst snd g_rng g_scene g_patches g_paths Rng.seed Rng.t].
  match goal with
  | |- context [if ?c then _ else _] => destruct c
  end.
  - match goal with
    | |- context [if ?c then _ else _] => destruct c
    end.
    + exists 3%nat. split; [lia | reflexivity].
    + exists 4%nat. split; [lia | reflexivity].
  - exists 3%nat. split; [lia | reflexivity].
Qed.

(** One tree-loop candidate: nothing is added, or the three objects of a
    tree whose position lies in the square of half side 180. *)
Lemma tree_step_places (x0 : unit) (st : gen_state) :
  g_scene (snd (tree_step x0 st)) = g_scene st
  \/ exists x z s,
       in_square 180 x = true /\ in_square 180 z = true
       /\ g_scene (snd (tree_step x0 st))
          = g_scene st ++ tree_objects trunkMat leafMat x z s.
Proof.
  unfold tree_step.
  rewrite run_bind. cbv beta.
  rewrite run_bind. cbv beta.
  set (st1 := snd (rng_rand st)).
  set (st2 := snd (rng_rand st1)).
  destruct (rng_rand_exact st) as (u1 & H1 & ->).
  destruct (rng_rand_exact st1) as (u2 & H2 & ->).
  change (n 360) with (Num.of_Z (2 * 180)).
  set (x := ((canon u1 (-32) - Num.dec 5 10) * Num.of_Z (2 * 180))%flt).
  set (z := ((canon u2 (-32) - Num.dec 5 10) * Num.of_Z (2 * 180))%flt).
  assert (Hx : in_square 180 x = true)
    by (subst x; apply centred_in_square; lia).
  assert (Hz : in_square 180 z = true)
    by (subst z; apply centred_in_square; lia).
  assert (S1 : g_scene st1 = g_scene st)
    by (subst st1; unfold rng_rand; destruct (Rng.next (g_rng st)); reflexivity).
  assert (S2 : g_scene st2 = g_scene st)
    by (subst st2; unfold rng_rand; destruct (Rng.next (g_rng st1));
        exact S1).
  assert (Srand : forall s0, g_scene (snd (rng_rand s0)) = g_scene s0)
    by (intros s0; unfold rng_rand; destruct (Rng.next (g_rng s0));
        reflexivity).
  rewrite run_bind. cbv beta.
  destruct (nearCorridor x z).
  - rewrite run_bind. cbv beta.
    destruct (Num.ltb (fst (rng_rand st2)) (Num.dec 75 100)).
    + left. unfold ret. cbn [fst snd]. rewrite Srand. exact S2.
    + right. unfold ret. cbn [fst snd]. cbv beta iota.
      rewrite run_bind. cbv beta.
      eexists x, z, _. split; [exact Hx|]. split; [exact Hz|].
      unfold addTree, scene_add. cbn [snd g_scene].
      rewrite !Srand, S2. reflexivity.
  - right. unfold ret. cbn [fst snd]. cbv beta iota.
    rewrite run_bind. cbv beta.
    eexists x, z, _. split; [exact Hx|]. split; [exact Hz|].
    unfold addTree, scene_add. cbn [snd g_scene].
    rewrite Srand, S2. reflexivity.
Qed.

(** X12: the tree loop adds the three objects of each tree it keeps and
    nothing else, keeps at most as many trees as it has iterations, and
    places each in the square [[-180, 180)] on both axes. *)
Theorem tree_loop_places (k : nat) :
  forall st,
  exists trees : list (float * float * float),
    (List.length trees <= k)%nat
    /\ Forall (fun t => in_square 180 (fst (fst t)) = true
                        /\ in_square 180 (snd (fst t)) = true) trees
    /\ g_scene (snd (for_loop k tree_step tt st))
       = g_scene st
         ++ flat_map (fun t => tree_objects trunkMat leafMat
                                 (fst (fst t)) (snd (fst t)) (snd t)) trees.
Proof.
  induction k as [|k IH]; intros st.
  - exists []. cbn. rewrite app_nil_r. repeat split; [lia | constructor].
  - rewrite for_loop_succ.
    destruct (fst (tree_step tt st)).
    destruct (IH (snd (tree_step tt st))) as (trees & Hl & Hf & E).
    destruct (tree_step_places tt st) as [S | (x & z & s & Hx & Hz & S)].
    + exists trees. rewrite E, S. repeat split; [lia | exact Hf].
    + exists ((x, z, s) :: trees). rewrite E, S.
      split; [cbn; lia|]. split.
      * constructor; [split; assumption | exact Hf].
      * cbn [flat_map fst snd]. rewrite app_assoc. reflexivity.
Qed.

Section Generator.
Variables Math_cos Math_sin : float -> float.
Variable Math_atan2 : float -> float -> float.

(** X11: every patch of every generated world has its centre in the
    square [[-175, 175)] on both axes, a radius in [[6, 20)] and the one
    colour of the code. *)
Theorem patches_in_range (a : world_args) :
  Forall patch_in_range
    (patches (fst (createWorld Math_cos Math_sin Math_atan2 a))).
Proof.
  unfold createWorld.
  set (ws := match worldSize a with Some w => w | None => n 500 end).
  set (b := match arg_bounds a with Some b => b | None => n 240 end).
  set (st := {| g_rng := rng a; g_scene := scene a;
                g_patches := []; g_paths := [] |}).
  assert (H : Forall patch_in_range
                (patches (fst (generate Math_cos Math_sin Math_atan2 ws b st)))).
  { unfold generate.
    repeat (rewrite run_bind; cbv beta).
    cbn [fst patches].
    rewrite (addLandmarks_stable Math_cos Math_sin g_patches) by reflexivity.
    rewrite (stable_for_loop g_patches tree_step tree_step_stable_patches).
    rewrite !carvePath_stable_patches.
    apply patch_loop_good. constructor. }
  destruct (generate Math_cos Math_sin Math_atan2 ws b st). exact H.
Qed.

Lemma carve_step_draws (sl wd tc : float) (w : walk) :
  draws 1 2 (carve_step Math_cos Math_sin Math_atan2 sl wd tc w).
Proof.
  unfold carve_step, addPathSegment.
  eapply draws_weaken with (lo := (1 + (0 + (0 + 0)))%nat)
                           (hi := (1 + (1 + (0 + 0)))%nat); [lia | lia |].
  apply draws_bind; [apply draws_rand | intros r].
  apply draws_bind.
  - destruct (Num.ltb r tc).
    + eapply draws_weaken with (lo := (1 + 0)%nat) (hi := (1 + 0)%nat);
        [lia | lia |].
      apply draws_bind; [apply draws_rand | intros; apply draws_ret].
    + eapply draws_weaken; [| | apply draws_ret]; lia.
  - intros ang.
    apply draws_bind; [|intros; apply draws_ret].
    eapply draws_weaken with (lo := (0 + 0)%nat) (hi := (0 + 0)%nat);
      [lia | lia |].
    apply draws_bind; [apply draws_scene_add | intros; apply draws_ret].
Qed.

Lemma carvePath_consumes (a : carve_args) :
  draws (1 + Z.to_nat (steps a)) (1 + 2 * Z.to_nat (steps a))
        (carvePath Math_cos Math_sin Math_atan2 a).
Proof.
  unfold carvePath.
  eapply draws_weaken
    with (lo := (1 + (Z.to_nat (steps a) * 1 + 0))%nat)
         (hi := (1 + (Z.to_nat (steps a) * 2 + 0))%nat); [lia | lia |].
  apply draws_bind; [apply draws_rand | intros r].
  apply draws_bind.
  - apply draws_for_loop. intros w. apply carve_step_draws.
  - intros w. apply draws_paths_push.
Qed.

(** X13: [carvePath] draws the heading, then one or two values for each
    step: between [steps + 1] and [2 * steps + 1] draws in all (the
    heading alone when [steps] is not positive). *)
Theorem carvePath_draws (a : carve_args) (st : gen_state) :
  exists k,
    (1 + Z.to_nat (steps a) <= k <= 1 + 2 * Z.to_nat (steps a))%nat
    /\ g_rng (snd (carvePath Math_cos Math_sin Math_atan2 a st))
       = Rng.skip k (g_rng st).
Proof. exact (carvePath_consumes a st). Qed.

Lemma addLandmarks_draws : draws 0 0 (addLandmarks Math_cos Math_sin).
Proof.
  intros st. exists 0%nat. split; [lia|].
  apply (addLandmarks_stable Math_cos Math_sin g_rng). reflexivity.
Qed.

Lemma generate_draws (ws b : float) :
  draws 2368 3223 (generate Math_cos Math_sin Math_atan2 ws b).
Proof.
  unfold generate.
  eapply draws_weaken
    with (lo := (0 + (70 * 3 + ((1 + 75) + ((1 + 75) + ((1 + 55)
                 + (650 * 3 + (0 + 0)))))))%nat)
         (hi := (0 + (70 * 3 + ((1 + 2 * 75) + ((1 + 2 * 75) + ((1 + 2 * 55)
                 + (650 * 4 + (0 + 0)))))))%nat); [lia | lia |].
  apply draws_bind; [apply draws_scene_add | intros _].
  apply draws_bind;
    [apply draws_for_loop; intros; apply patch_step_draws | intros _].
  apply draws_bind;
    [eapply draws_weaken; [| | apply carvePath_consumes]; cbn [steps]; lia
    | intros _].
  apply draws_bind;
    [eapply draws_weaken; [| | apply carvePath_consumes]; cbn [steps]; lia
    | intros _].
  apply draws_bind;
    [eapply draws_weaken; [| | apply carvePath_consumes]; cbn [steps]; lia
    | intros _].
  apply draws_bind;
    [apply (draws_for_loop 3 4 tree_step tree_step_draws_bounds treeCount)
    | intros _].
  apply draws_bind; [apply addLandmarks_draws | intros lm].
  intros st. exists 0%nat. split; [lia | reflexivity].
Qed.

(** X14: one run of [createWorld] makes between 2368 and 3223 draws,
    whatever its arguments. *)
Theorem createWorld_draws (a : world_args) :
  exists k, (2368 <= k <= 3223)%nat
            /\ snd (snd (createWorld Math_cos Math_sin Math_atan2 a))
               = Rng.skip k (rng a).
Proof.
  unfold createWorld.
  set (ws := match worldSize a with Some w => w | None => n 500 end).
  set (b := match arg_bounds a with Some b => b | None => n 240 end).
  set (st := {| g_rng := rng a; g_scene := scene a;
                g_patches := []; g_paths := [] |}).
  destruct (generate_draws ws b st) as (k & Hk & E).
  exists k. split; [exact Hk|].
  destruct (generate Math_cos Math_sin Math_atan2 ws b st) as [w st'].
  cbn [snd] in *. exact E.
Qed.

End Generator.
End WorldNumeric.

(* ================================================================== *)
(** ** The map overlay *)

Module MapFacts.
Import World MapOverlay.

(** *** The pixel ratio and the canvas size *)

(** X15: the pixel ratio used for the canvas is a number other than zero
    and at most 2, whatever [window.devicePixelRatio] is (undefined, 0
    and NaN included). *)
Theorem device_ratio_bounded (d : option float) :
  truthy (device_ratio d) = true
  /\ Num.leb (device_ratio d) (Num.of_Z 2) = true.
Proof.
  assert (H : forall v, truthy v = true ->
                truthy (Math_min v (n 2)) = true
                /\ Num.leb (Math_min v (n 2)) (Num.of_Z 2) = true).
  { intros v Hv. unfold Math_min.
    change (n 2) with (S754_finite false 4503599627370496 (-51)).
    change (Num.of_Z 2) with (S754_finite false 4503599627370496 (-51)).
    destruct v as [s | s | | s m e]; try discriminate Hv.
    - destruct s; split; reflexivity.
    - unfold Num.leb, SFleb.
      destruct (SFcompare (S754_finite s m e)
                  (S754_finite false 4503599627370496 (-51)))
        as [[| |]|] eqn:E.
      + rewrite E. split; reflexivity.
      + rewrite E. split; reflexivity.
      + split; reflexivity.
      + discriminate E. }
  unfold device_ratio.
  destruct d as [d|]; [destruct (truthy d) eqn:T|].
  - apply H. exact T.
  - apply H. reflexivity.
  - apply H. reflexivity.
Qed.

(** A side of the canvas is at least 1, unless [side * dpr] is NaN. *)
Lemma canvas_side_at_least_1 (side dpr : float) :
  canvas_side side dpr = Num.NaN
  \/ Num.leb (Num.of_Z 1) (canvas_side side dpr) = true.
Proof.
  unfold canvas_side.
  generalize (Num.floor (Num.mul side dpr)) as v. intros v.
  unfold Math_max.
  change (n 1) with (S754_finite false 4503599627370496 (-52)).
  change (Num.of_Z 1) with (S754_finite false 4503599627370496 (-52)).
  unfold Num.leb, SFleb.
  destruct (SFcompare (S754_finite false 4503599627370496 (-52)) v)
    as [[| |]|] eqn:E.
  - right. reflexivity.
  - right. rewrite E. reflexivity.
  - right. reflexivity.
  - left. reflexivity.
Qed.


(** *** [worldToMap] *)

Lemma not_finite_mul_l (a b : float) :
  is_finite a = false -> is_finite (Num.mul a b) = false.
Proof.
  destruct a as [| | |]; destruct b as [| | |]; intros H;
    try discriminate H; reflexivity.
Qed.

Lemma not_finite_add_r (a b : float) :
  is_finite b = false -> is_finite (Num.add a b) = false.
Proof.
  destruct a as [s | s | | s m e]; destruct b as [s' | s' | | s' m' e'];
    intros H; try discriminate H; try reflexivity;
    try destruct s; try destruct s'; reflexivity.
Qed.

Lemma not_finite_sub_r (a b : float) :
  is_finite b = false -> is_finite (Num.sub a b) = false.
Proof.
  destruct a as [s | s | | s m e]; destruct b as [s' | s' | | s' m' e'];
    intros H; try discriminate H; try reflexivity;
    try destruct s; try destruct s'; reflexivity.
Qed.

Lemma div_by_zero_bounds (x : float) (s : bool) :
  is_finite (Num.div (Num.add x (S754_zero s))
                     (Num.mul (n 2) (S754_zero s))) = false.
Proof.
  change (Num.mul (n 2) (S754_zero s)) with (S754_zero (xorb false s)).
  destruct x as [sx | sx | | sx m e]; try destruct sx; destruct s;
    reflexivity.
Qed.

(** X16: with [bounds] equal to zero no point of the world has a finite
    position on the map: both coordinates are NaN or infinite. *)
Theorem worldToMap_zero_bounds (world : map_world) (s : bool)
  (w h x z : float) :
  mw_bounds world = Some (S754_zero s) ->
  is_finite (fst (worldToMap world w h x z)) = false
  /\ is_finite (snd (worldToMap world w h x z)) = false.
Proof.
  intros Hb. unfold worldToMap. rewrite Hb. cbn [fst snd].
  split.
  - apply not_finite_add_r, not_finite_mul_l, div_by_zero_bounds.
  - apply not_finite_add_r, not_finite_mul_l, not_finite_sub_r,
      div_by_zero_bounds.
Qed.

Lemma worldToMap_zero_bounds_witness :
  let world := {| mw_bounds := Some (S754_zero false); mw_paths := None;
                  mw_landmarks := None |} in
  mw_bounds world = Some (S754_zero false)
  /\ is_finite (fst (worldToMap world (n 900) (n 700) (n 10) (n 20))) = false
  /\ is_finite (snd (worldToMap world (n 900) (n 700) (n 10) (n 20))) = false.
Proof.
  split; [reflexivity|].
  apply (worldToMap_zero_bounds _ false). reflexivity.
Defined.

(** *** What [draw] puts on the canvas *)

Section Draw.
Variables cw ch dpr : float.
Variable Math_random : nat -> float.

Lemma count_app (f : cmd -> bool) (l1 l2 : list cmd) :
  count f (l1 ++ l2) = (count f l1 + count f l2)%nat.
Proof. unfold count. rewrite filter_app, length_app. reflexivity. Qed.

Lemma texts_app (l1 l2 : list cmd) : texts (l1 ++ l2) = texts l1 ++ texts l2.
Proof.
  induction l1 as [|c l1 IH]; [reflexivity|].
  destruct c; cbn [texts app]; rewrite ?IH; reflexivity.
Qed.

Lemma noise_quiet (l : list nat) :
  texts (map (noise cw ch Math_random) l) = []
  /\ count is_LineTo (map (noise cw ch Math_random) l) = 0%nat
  /\ count is_Stroke (map (noise cw ch Math_random) l) = 0%nat
  /\ count is_Arc (map (noise cw ch Math_random) l) = 0%nat.
Proof.
  induction l as [|i l (IH1 & IH2 & IH3 & IH4)]; [repeat split|].
  repeat split; assumption.
Qed.

Lemma background_quiet :
  texts (background cw ch dpr Math_random) = []
  /\ count is_LineTo (background cw ch dpr Math_random) = 0%nat
  /\ count is_Stroke (background cw ch dpr Math_random) = 0%nat
  /\ count is_Arc (background cw ch dpr Math_random) = 0%nat.
Proof.
  unfold background.
  destruct (noise_quiet (seq 0 2200)) as (H1 & H2 & H3 & H4).
  generalize dependent (map (noise cw ch Math_random) (seq 0 2200)).
  intros l H1 H2 H3 H4.
  rewrite !texts_app, !count_app, H1, H2, H3, H4. repeat split.
Qed.

Lemma line_quiet (world : map_world) (l : list point) :
  texts (map (fun p => LineTo (fst (to_map cw ch world p))
                              (snd (to_map cw ch world p))) l) = []
  /\ count is_LineTo
       (map (fun p => LineTo (fst (to_map cw ch world p))
                             (snd (to_map cw ch world p))) l)
     = List.length l
  /\ count is_Stroke
       (map (fun p => LineTo (fst (to_map cw ch world p))
                             (snd (to_map cw ch world p))) l) = 0%nat
  /\ count is_Arc
       (map (fun p => LineTo (fst (to_map cw ch world p))
                             (snd (to_map cw ch world p))) l) = 0%nat.
Proof.
  induction l as [|p l (IH1 & IH2 & IH3 & IH4)]; [repeat split|].
  repeat split; try assumption.
  unfold count in *. cbn [map filter is_LineTo List.length].
  f_equal. exact IH2.
Qed.

(** A path of at least two points is one polyline: a [lineTo] for each
    point after the first, and one [stroke]. *)
Lemma draw_path_counts (world : map_world) (wd : option float)
  (p0 : point) (tail : list point) :
  tail <> [] ->
  let cmds := draw_path cw ch dpr world
                {| mp_width := wd; mp_points := Some (p0 :: tail) |} in
  texts cmds = []
  /\ count is_LineTo cmds = List.length tail
  /\ count is_Stroke cmds = 1%nat
  /\ count is_Arc cmds = 0%nat.
Proof.
  intros Ht. destruct tail as [|p1 tail]; [contradiction|].
  cbv zeta. unfold draw_path. cbn [mp_width mp_points].
  destruct (line_quiet world (p1 :: tail)) as (H1 & H2 & H3 & H4).
  generalize dependent
    (map (fun p => LineTo (fst (to_map cw ch world p))
                          (snd (to_map cw ch world p))) (p1 :: tail)).
  intros l H1 H2 H3 H4.
  change (LineWidth ?w :: ([BeginPath; MoveTo ?x ?y] ++ l ++ [Stroke]))
    with ([LineWidth w; BeginPath; MoveTo x y] ++ l ++ [Stroke]).
  rewrite !texts_app, !count_app, H1, H2, H3, H4.
  repeat split. cbn. lia.
Qed.

End Draw.

(** *** Opening and closing *)

Lemma units_eqb_eq (a b : Rng.jsstring) : units_eqb a b = true <-> a = b.
Proof.
  revert b. induction a as [|x a IH]; intros [|y b]; cbn [units_eqb];
    try (split; discriminate); [tauto|].
  rewrite andb_true_iff, Z.eqb_eq, IH.
  split; [intros [-> ->]; reflexivity | intros E; injection E; auto].
Qed.

Lemma ascii_lower_idempotent (s : Rng.jsstring) :
  ascii_lower (ascii_lower s) = ascii_lower s.
Proof.
  unfold ascii_lower. rewrite map_map. apply map_ext. intros c.
  destruct ((65 <=? c) && (c <=? 90)) eqn:E.
  - apply andb_true_iff in E. destruct E as [E1 E2].
    apply Z.leb_le in E1, E2.
    replace ((65 <=? c + 32) && (c + 32 <=? 90)) with false; [reflexivity|].
    symmetry. apply andb_false_iff. right. apply Z.leb_gt. lia.
  - rewrite E. reflexivity.
Qed.

Section Handlers.
Variable toLowerCase : Rng.jsstring -> Rng.jsstring.

Lemma run_invariant (P : overlay -> Prop) (c : config) :
  P created ->
  (forall st i, P st -> P (handle toLowerCase c st i)) ->
  forall inputs, P (run toLowerCase c inputs).
Proof.
  intros H0 Hs inputs. unfold run.
  generalize created H0. induction inputs as [|i inputs IH]; intros st H.
  - exact H.
  - cbn [fold_left]. apply IH, Hs, H.
Qed.

(** X17: after any sequence of key presses, clicks, resizes and calls of
    the returned methods, the overlay is displayed ([flex]) exactly when
    [isOpen] is true, and hidden ([none]) otherwise. *)
Theorem display_follows_isOpen (c : config) (inputs : list input) :
  let st := run toLowerCase c inputs in
  display st = if isOpen st then "flex"%string else "none"%string.
Proof.
  apply (run_invariant
           (fun st => display st
                      = if isOpen st then "flex"%string else "none"%string)).
  - reflexivity.
  - intros st i H. unfold handle, toggle, open, close, redraw.
    destruct i; try destruct (units_eqb _ _); destruct (isOpen st) eqn:E;
      cbn [isOpen display negb]; rewrite ?E; try exact H; reflexivity.
Qed.

Lemma calls_app (e : effect) (i : bool) (d : string) (l1 l2 : list effect) :
  calls e {| isOpen := i; display := d; effects := l1 ++ l2 |}
  = (List.length (filter (effect_eqb e) l1)
     + List.length (filter (effect_eqb e) l2))%nat.
Proof. unfold calls. cbn [effects]. rewrite filter_app, length_app. reflexivity. Qed.

(** X18: when both callbacks are given, [onOpen] and [onClose] alternate:
    [onOpen] has been called once more than [onClose] while the overlay
    is open, and as often while it is closed. *)
Theorem callbacks_balanced (c : config) (inputs : list input) :
  has_onOpen c = true -> has_onClose c = true ->
  let st := run toLowerCase c inputs in
  calls CallOnOpen st
  = (calls CallOnClose st + if isOpen st then 1 else 0)%nat.
Proof.
  intros Ho Hc.
  apply (run_invariant
           (fun st => calls CallOnOpen st
                      = (calls CallOnClose st
                         + if isOpen st then 1 else 0)%nat)).
  - reflexivity.
  - intros st i H. unfold handle, toggle, open, close, redraw.
    rewrite Ho, Hc.
    destruct i; try destruct (units_eqb _ _); destruct (isOpen st) eqn:E;
      cbn [isOpen display negb effects]; rewrite ?E; try exact H;
      rewrite ?calls_app, ?filter_app, ?length_app;
      fold (calls CallOnOpen st) (calls CallOnClose st);
      cbn [filter effect_eqb List.length]; lia.
Qed.

(** X19: [draw] has run at least once for every call of [onOpen]. *)
Theorem every_open_draws (c : config) (inputs : list input) :
  let st := run toLowerCase c inputs in
  (calls CallOnOpen st <= calls Draw st)%nat.
Proof.
  apply (run_invariant
           (fun st => (calls CallOnOpen st <= calls Draw st)%nat)).
  - apply le_n.
  - intros st i H. unfold handle, toggle, open, close, redraw.
    destruct i; try destruct (units_eqb _ _); destruct (isOpen st) eqn:E;
      cbn [isOpen display negb effects]; rewrite ?E; try exact H;
      destruct (has_onOpen c); destruct (has_onClose c);
      rewrite ?calls_app, ?filter_app, ?length_app;
      fold (calls CallOnOpen st) (calls Draw st);
      cbn [filter effect_eqb List.length]; lia.
Qed.

(** X20: the key pressed is lower-cased, [toggleKey] is not.  A
    [toggleKey] that lower-casing changes (an upper-case letter, say) is
    never matched: no sequence of key presses opens the overlay. *)
Theorem changed_by_lower_case_never_toggles (c : config)
  (keys : list Rng.jsstring) :
  (forall s, toLowerCase (toLowerCase s) = toLowerCase s) ->
  toLowerCase (toggleKey c) <> toggleKey c ->
  run toLowerCase c (map KeyDown keys) = created.
Proof.
  intros Hidem Hkey. unfold run.
  generalize created. induction keys as [|key keys IH]; intros st.
  - reflexivity.
  - cbn [map fold_left handle].
    destruct (units_eqb (toLowerCase key) (toggleKey c)) eqn:E.
    + apply units_eqb_eq in E. exfalso. apply Hkey.
      rewrite <- E. apply Hidem.
    + apply IH.
Qed.

End Handlers.

Lemma callbacks_balanced_witness :
  let c := {| toggleKey := [109]; has_onOpen := true;
              has_onClose := true |} in
  let st := run ascii_lower c [KeyDown [77]; ClickBackground; CallToggle] in
  has_onOpen c = true /\ has_onClose c = true
  /\ calls CallOnOpen st
     = (calls CallOnClose st + if isOpen st then 1 else 0)%nat.
Proof.
  intros c st. split; [reflexivity|]. split; [reflexivity|].
  apply (callbacks_balanced ascii_lower c
           [KeyDown [77]; ClickBackground; CallToggle]); reflexivity.
Defined.

Lemma changed_by_lower_case_never_toggles_witness :
  let c := {| toggleKey := [77]; has_onOpen := true;
              has_onClose := true |} in
  (forall s, ascii_lower (ascii_lower s) = ascii_lower s)
  /\ ascii_lower (toggleKey c) <> toggleKey c
  /\ run ascii_lower c (map KeyDown [[109]; [77]]) = created.
Proof.
  intros c. split; [exact ascii_lower_idempotent|].
  split; [discriminate|].
  apply (changed_by_lower_case_never_toggles ascii_lower c [[109]; [77]]);
    [exact ascii_lower_idempotent | discriminate].
Defined.

End MapFacts.

Module MapWorldFacts.
Import World MapOverlay MapFacts.

Section Generated.
Variables Math_cos Math_sin : float -> float.
Variable Math_atan2 : float -> float -> float.
Variables cw ch dpr : float.
Variable Math_random : nat -> float.

(** X21: the map of a generated world, whatever the arguments of
    [createWorld]: three path polylines of 75, 75 and 55 segments (with
    the three of the north arrow, 208 calls of [lineTo]), eight strokes,
    four landmark discs, and the labels in this order. *)
Theorem map_of_generated_world (a : world_args) :
  let cmds := draw cw ch dpr Math_random
                (view (fst (createWorld Math_cos Math_sin Math_atan2 a))) in
  texts cmds = ["N"; "Stone Ring"; "Pond"; "Watch Rock"; "Dead Tree"]%string
  /\ count is_LineTo cmds = 208%nat
  /\ count is_Stroke cmds = 8%nat
  /\ count is_Arc cmds = 4%nat.
Proof.
  destruct (WorldFacts.createWorld_shape Math_cos Math_sin Math_atan2 a)
    as (_ & _ & (p1 & p2 & p3 & t1 & t2 & t3 & Hp & H1 & L1 & H2 & L2
                 & H3 & L3) & Hl).
  cbv zeta in *.
  generalize dependent (fst (createWorld Math_cos Math_sin Math_atan2 a)).
  intros w Hp Hl.
  unfold draw, draw_paths, draw_landmarks, view.
  cbn [mw_paths mw_landmarks].
  rewrite Hp, Hl. cbn [map flat_map]. rewrite H1, H2, H3.
  set (world := {| mw_bounds := _; mw_paths := _; mw_landmarks := _ |}).
  assert (N1 : t1 <> []) by (intros ->; discriminate L1).
  assert (N2 : t2 <> []) by (intros ->; discriminate L2).
  assert (N3 : t3 <> []) by (intros ->; discriminate L3).
  destruct (draw_path_counts cw ch dpr world (Some (width p1))
              (v2 (n (-60)) (n 20)) t1 N1)
    as (A1 & A2 & A3 & A4).
  destruct (draw_path_counts cw ch dpr world (Some (width p2))
              (v2 (n 40) (n (-30))) t2 N2)
    as (B1 & B2 & B3 & B4).
  destruct (draw_path_counts cw ch dpr world (Some (width p3))
              (v2 (n 0) (n 0)) t3 N3)
    as (C1 & C2 & C3 & C4).
  destruct (background_quiet cw ch dpr Math_random) as (G1 & G2 & G3 & G4).
  rewrite !texts_app, !count_app, G1, G2, G3, G4,
    A1, A2, A3, A4, B1, B2, B3, B4, C1, C2, C3, C4, L1, L2, L3.
  repeat split.
Qed.

End Generated.
End MapWorldFacts.
